(** * py-RubiksCube: the facelet engine of [src/cube.py], the history
      inverter of [src/solver.py] and the undo command of [src/cli.py].

    The Python object [Cube] holds two attributes: [faces], a list of six
    faces, each a list of three rows, each a list of three one-letter colour
    strings, and [move_history], a list of move strings.  Both are modelled
    as the lists they are.  Methods mutate [self]; here they are
    computations of a state-and-error monad over the record [Cube], where
    the error stands for the [IndexError] Python raises on an index out of
    range.

    Characters of a [string] are read as code points below 256.  Rows and
    faces are values: the constructor, [_rotate_face_clockwise] and the
    slice copies [row[:]] of the source never let two rows share one list
    object, so no aliasing has to be tracked. *)

From Stdlib Require Import Ascii String.
From stdpp Require Import base option list strings gmap.

Local Open Scope string_scope.
Local Open Scope list_scope.

(** ** State *)

Record Cube : Type := mkCube {
  faces : list (list (list string));
  move_history : list string
}.

(** Face index constants of the class. *)
Definition U : nat := 0.
Definition D : nat := 1.
Definition F : nat := 2.
Definition B : nat := 3.
Definition L : nat := 4.
Definition R : nat := 5.

Definition FACE_COLORS : list string := ["W"; "Y"; "G"; "B"; "O"; "R"].

(** ** The monad of methods: state passing, [None] is a raised IndexError *)

Definition M (A : Type) : Type := Cube → option (A * Cube).

Definition ret {A} (a : A) : M A := λ cu, Some (a, cu).

Definition bind {A B} (m : M A) (k : A → M B) : M B :=
  λ cu, match m cu with
        | Some (a, cu') => k a cu'
        | None => None
        end.

Declare Scope cube_scope.
Delimit Scope cube_scope with cube.
Notation "x <- m ;; k" := (bind m (λ x, k))
  (at level 100, m at next level, right associativity) : cube_scope.
Notation "m ;; k" := (bind m (λ _, k))
  (at level 100, right associativity) : cube_scope.
Local Open Scope cube_scope.

(** [l[i]] for a Python list [l] held in a local variable. *)
Definition index {A} (l : list A) (i : nat) : M A :=
  λ cu, match l !! i with
        | Some x => Some (x, cu)
        | None => None
        end.

(** [l[i] = x] on a list value: an error out of range, never an extension. *)
Definition store {A} (i : nat) (x : A) (l : list A) : option (list A) :=
  if decide (i < length l) then Some (<[i:=x]> l) else None.

(** [self.faces[f]] *)
Definition read_face (f : nat) : M (list (list string)) :=
  λ cu, match faces cu !! f with
        | Some fc => Some (fc, cu)
        | None => None
        end.

(** [self.faces[f] = fc] *)
Definition write_face (f : nat) (fc : list (list string)) : M unit :=
  λ cu, match store f fc (faces cu) with
        | Some fs => Some (tt, mkCube fs (move_history cu))
        | None => None
        end.

(** [self.faces[f][r][:]] *)
Definition read_row (f r : nat) : M (list string) :=
  fc <- read_face f ;; index fc r.

(** [self.faces[f][r] = row] *)
Definition write_row (f r : nat) (row : list string) : M unit :=
  fc <- read_face f ;;
  λ cu, match store r row fc with
        | Some fc' => write_face f fc' cu
        | None => None
        end.

(** [self.faces[f][r][c]] *)
Definition read_cell (f r c : nat) : M string :=
  row <- read_row f r ;; index row c.

(** [self.faces[f][r][c] = v] *)
Definition write_cell (f r c : nat) (v : string) : M unit :=
  row <- read_row f r ;;
  λ cu, match store c v row with
        | Some row' => write_row f r row' cu
        | None => None
        end.

(** [self.move_history.append(m)] *)
Definition append_history (m : string) : M unit :=
  λ cu, Some (tt, mkCube (faces cu) (move_history cu ++ [m])).

(** [for i in range(n): body i] *)
Fixpoint for_each (ixs : list nat) (body : nat → M unit) : M unit :=
  match ixs with
  | [] => ret tt
  | i :: ixs' => body i ;; for_each ixs' body
  end.

Definition for_range (n : nat) (body : nat → M unit) : M unit :=
  for_each (seq 0 n) body.

(** [[e i for i in range(n)]] *)
Fixpoint collect (ixs : list nat) (e : nat → M string) : M (list string) :=
  match ixs with
  | [] => ret []
  | i :: ixs' => x <- e i ;; xs <- collect ixs' e ;; ret (x :: xs)
  end.

Definition comprehension (n : nat) (e : nat → M string) : M (list string) :=
  collect (seq 0 n) e.

(** ** Construction and the solved test *)

(** [_create_solved_cube] *)
Definition _create_solved_cube : list (list (list string)) :=
  (λ color, replicate 3 (replicate 3 color)) <$> FACE_COLORS.

(** [Cube()] *)
Definition new_cube : Cube := mkCube _create_solved_cube [].

(** [reset] *)
Definition reset : M unit :=
  λ _, Some (tt, mkCube _create_solved_cube []).

(** The body of [is_solved]: faces in order, the first cell that differs
    from [face[0][0]] ends the loop with [False]. *)
Fixpoint is_solved_loop (fs : list (list (list string))) : option bool :=
  match fs with
  | [] => Some true
  | face :: fs' =>
      match face !! 0 ≫= (.!! 0) with
      | Some color =>
          if forallb (forallb (λ cell, bool_decide (cell = color))) face
          then is_solved_loop fs'
          else Some false
      | None => None
      end
  end.

Definition is_solved : M bool :=
  λ cu, match is_solved_loop (faces cu) with
        | Some b => Some (b, cu)
        | None => None
        end.

(** ** The two in-place rotations of a face grid *)

Definition _rotate_face_clockwise (face_idx : nat) : M unit :=
  face <- read_face face_idx ;;
  r0 <- index face 0 ;; r1 <- index face 1 ;; r2 <- index face 2 ;;
  a20 <- index r2 0 ;; a10 <- index r1 0 ;; a00 <- index r0 0 ;;
  a21 <- index r2 1 ;; a11 <- index r1 1 ;; a01 <- index r0 1 ;;
  a22 <- index r2 2 ;; a12 <- index r1 2 ;; a02 <- index r0 2 ;;
  write_face face_idx
    [ [a20; a10; a00];
      [a21; a11; a01];
      [a22; a12; a02] ].

Definition _rotate_face_counter_clockwise (face_idx : nat) : M unit :=
  face <- read_face face_idx ;;
  r0 <- index face 0 ;; r1 <- index face 1 ;; r2 <- index face 2 ;;
  a02 <- index r0 2 ;; a12 <- index r1 2 ;; a22 <- index r2 2 ;;
  a01 <- index r0 1 ;; a11 <- index r1 1 ;; a21 <- index r2 1 ;;
  a00 <- index r0 0 ;; a10 <- index r1 0 ;; a20 <- index r2 0 ;;
  write_face face_idx
    [ [a02; a12; a22];
      [a01; a11; a21];
      [a00; a10; a20] ].

(** ** The six face turns, clockwise and ([prime]) counter-clockwise *)

Definition move_U (prime : bool) : M unit :=
  if prime then
    _rotate_face_counter_clockwise U ;;
    temp <- read_row F 0 ;;
    (x <- read_row R 0 ;; write_row F 0 x) ;;
    (x <- read_row B 0 ;; write_row R 0 x) ;;
    (x <- read_row L 0 ;; write_row B 0 x) ;;
    write_row L 0 temp ;;
    append_history "U'"
  else
    _rotate_face_clockwise U ;;
    temp <- read_row F 0 ;;
    (x <- read_row L 0 ;; write_row F 0 x) ;;
    (x <- read_row B 0 ;; write_row L 0 x) ;;
    (x <- read_row R 0 ;; write_row B 0 x) ;;
    write_row R 0 temp ;;
    append_history "U".

Definition move_D (prime : bool) : M unit :=
  if prime then
    _rotate_face_counter_clockwise D ;;
    temp <- read_row F 2 ;;
    (x <- read_row L 2 ;; write_row F 2 x) ;;
    (x <- read_row B 2 ;; write_row L 2 x) ;;
    (x <- read_row R 2 ;; write_row B 2 x) ;;
    write_row R 2 temp ;;
    append_history "D'"
  else
    _rotate_face_clockwise D ;;
    temp <- read_row F 2 ;;
    (x <- read_row R 2 ;; write_row F 2 x) ;;
    (x <- read_row B 2 ;; write_row R 2 x) ;;
    (x <- read_row L 2 ;; write_row B 2 x) ;;
    write_row L 2 temp ;;
    append_history "D".

Definition move_F (prime : bool) : M unit :=
  if prime then
    _rotate_face_counter_clockwise F ;;
    temp <- comprehension 3 (λ i, read_cell U 2 i) ;;
    for_range 3 (λ i, x <- read_cell R i 0 ;; write_cell U 2 i x) ;;
    for_range 3 (λ i, x <- read_cell D 0 (2 - i) ;; write_cell R i 0 x) ;;
    for_range 3 (λ i, x <- read_cell L i 2 ;; write_cell D 0 i x) ;;
    for_range 3 (λ i, x <- index temp (2 - i) ;; write_cell L i 2 x) ;;
    append_history "F'"
  else
    _rotate_face_clockwise F ;;
    temp <- comprehension 3 (λ i, read_cell U 2 i) ;;
    for_range 3 (λ i, x <- read_cell L (2 - i) 2 ;; write_cell U 2 i x) ;;
    for_range 3 (λ i, x <- read_cell D 0 i ;; write_cell L i 2 x) ;;
    for_range 3 (λ i, x <- read_cell R (2 - i) 0 ;; write_cell D 0 i x) ;;
    for_range 3 (λ i, x <- index temp i ;; write_cell R i 0 x) ;;
    append_history "F".

Definition move_B (prime : bool) : M unit :=
  if prime then
    _rotate_face_counter_clockwise B ;;
    temp <- comprehension 3 (λ i, read_cell U 0 i) ;;
    for_range 3 (λ i, x <- read_cell L (2 - i) 0 ;; write_cell U 0 i x) ;;
    for_range 3 (λ i, x <- read_cell D 2 i ;; write_cell L i 0 x) ;;
    for_range 3 (λ i, x <- read_cell R (2 - i) 2 ;; write_cell D 2 i x) ;;
    for_range 3 (λ i, x <- index temp i ;; write_cell R i 2 x) ;;
    append_history "B'"
  else
    _rotate_face_clockwise B ;;
    temp <- comprehension 3 (λ i, read_cell U 0 i) ;;
    for_range 3 (λ i, x <- read_cell R i 2 ;; write_cell U 0 i x) ;;
    for_range 3 (λ i, x <- read_cell D 2 (2 - i) ;; write_cell R i 2 x) ;;
    for_range 3 (λ i, x <- read_cell L i 0 ;; write_cell D 2 i x) ;;
    for_range 3 (λ i, x <- index temp (2 - i) ;; write_cell L i 0 x) ;;
    append_history "B".

Definition move_L (prime : bool) : M unit :=
  if prime then
    _rotate_face_counter_clockwise L ;;
    temp <- comprehension 3 (λ i, read_cell U i 0) ;;
    for_range 3 (λ i, x <- read_cell F i 0 ;; write_cell U i 0 x) ;;
    for_range 3 (λ i, x <- read_cell D i 0 ;; write_cell F i 0 x) ;;
    for_range 3 (λ i, x <- read_cell B (2 - i) 2 ;; write_cell D i 0 x) ;;
    for_range 3 (λ i, x <- index temp (2 - i) ;; write_cell B i 2 x) ;;
    append_history "L'"
  else
    _rotate_face_clockwise L ;;
    temp <- comprehension 3 (λ i, read_cell U i 0) ;;
    for_range 3 (λ i, x <- read_cell B (2 - i) 2 ;; write_cell U i 0 x) ;;
    for_range 3 (λ i, x <- read_cell D (2 - i) 0 ;; write_cell B i 2 x) ;;
    for_range 3 (λ i, x <- read_cell F i 0 ;; write_cell D i 0 x) ;;
    for_range 3 (λ i, x <- index temp i ;; write_cell F i 0 x) ;;
    append_history "L".

Definition move_R (prime : bool) : M unit :=
  if prime then
    _rotate_face_counter_clockwise R ;;
    temp <- comprehension 3 (λ i, read_cell U i 2) ;;
    for_range 3 (λ i, x <- read_cell B (2 - i) 0 ;; write_cell U i 2 x) ;;
    for_range 3 (λ i, x <- read_cell D (2 - i) 2 ;; write_cell B i 0 x) ;;
    for_range 3 (λ i, x <- read_cell F i 2 ;; write_cell D i 2 x) ;;
    for_range 3 (λ i, x <- index temp i ;; write_cell F i 2 x) ;;
    append_history "R'"
  else
    _rotate_face_clockwise R ;;
    temp <- comprehension 3 (λ i, read_cell U i 2) ;;
    for_range 3 (λ i, x <- read_cell F i 2 ;; write_cell U i 2 x) ;;
    for_range 3 (λ i, x <- read_cell D i 2 ;; write_cell F i 2 x) ;;
    for_range 3 (λ i, x <- read_cell B (2 - i) 0 ;; write_cell D i 2 x) ;;
    for_range 3 (λ i, x <- index temp (2 - i) ;; write_cell B i 0 x) ;;
    append_history "R".

(** ** The string methods the dispatcher uses *)

(** Python's whitespace among the code points below 256: TAB, LF, VT, FF,
    CR, the separators FS, GS, RS, US, the space, NEL and NBSP. *)
Definition is_space (ch : ascii) : bool :=
  let n := nat_of_ascii ch in
  (((9 <=? n) && (n <=? 13)) || ((28 <=? n) && (n <=? 32))
   || (n =? 133) || (n =? 160))%nat.

Fixpoint lstrip (s : string) : string :=
  match s with
  | EmptyString => EmptyString
  | String ch s' => if is_space ch then lstrip s' else s
  end.

Fixpoint rstrip (s : string) : string :=
  match s with
  | EmptyString => EmptyString
  | String ch s' =>
      match rstrip s' with
      | EmptyString => if is_space ch then EmptyString else String ch EmptyString
      | t => String ch t
      end
  end.

(** [s.strip()] *)
Definition strip (s : string) : string := rstrip (lstrip s).

(** [s.endswith(suffix)] *)
Fixpoint endswith (s suffix : string) : bool :=
  bool_decide (s = suffix) ||
  match s with
  | EmptyString => false
  | String _ s' => endswith s' suffix
  end.

(** [s.startswith(prefix)] *)
Fixpoint startswith (s prefix : string) : bool :=
  match prefix, s with
  | EmptyString, _ => true
  | String p prefix', String ch s' => bool_decide (ch = p) && startswith s' prefix'
  | String _ _, EmptyString => false
  end.

(** [s[:-1]] *)
Fixpoint drop_last (s : string) : string :=
  match s with
  | EmptyString => EmptyString
  | String ch EmptyString => EmptyString
  | String ch s' => String ch (drop_last s')
  end.

(** [s.split()]: maximal runs of non-whitespace, in order. *)
Fixpoint split_from (cur : string) (s : string) : list string :=
  match s with
  | EmptyString => if bool_decide (cur = EmptyString) then [] else [cur]
  | String ch s' =>
      if is_space ch
      then (if bool_decide (cur = EmptyString) then split_from EmptyString s'
            else cur :: split_from EmptyString s')
      else split_from (cur ++ String ch EmptyString)%string s'
  end.

Definition split (s : string) : list string := split_from EmptyString s.

(** [' '.join(l)] *)
Fixpoint join (l : list string) : string :=
  match l with
  | [] => EmptyString
  | [x] => x
  | x :: l' => (x ++ " " ++ join l')%string
  end.

(** ** Dispatch *)

(** The dictionary [move_map] of [execute_move]: face letter to bound method. *)
Definition move_map : gmap string (bool → M unit) :=
  list_to_map
    [ ("U", move_U); ("D", move_D); ("F", move_F);
      ("B", move_B); ("L", move_L); ("R", move_R) ].

Definition execute_move (move : string) : M unit :=
  let move := strip move in
  if bool_decide (move = EmptyString) then ret tt
  else
    let double := endswith move "2" in
    let move := if double then drop_last move else move in
    let prime := endswith move "'" in
    let move := if prime then drop_last move else move in
    match move_map !! move with
    | Some method =>
        if double then method prime ;; method prime
        else method prime
    | None => ret tt
    end.

Fixpoint execute_moves (moves : list string) : M unit :=
  match moves with
  | [] => ret tt
  | move :: moves' => execute_move move ;; execute_moves moves'
  end.

Definition execute_algorithm (algorithm : string) : M unit :=
  execute_moves (split algorithm).

(** ** History, undo, the history inverter and scramble *)

Definition read_history : M (list string) :=
  λ cu, Some (move_history cu, cu).

(** [cube.move_history = h] *)
Definition write_history (h : list string) : M unit :=
  λ cu, Some (tt, mkCube (faces cu) h).

(** [cube.move_history.pop()]: the last entry, an error on the empty list. *)
Definition pop_history : M string :=
  λ cu, match last (move_history cu) with
        | Some x => Some (x, mkCube (faces cu) (removelast (move_history cu)))
        | None => None
        end.

(** [undo_move] of [cli.py]; the result is the returned flag, the two
    printed lines are not modelled. *)
Definition undo_move : M bool :=
  h <- read_history ;;
  if bool_decide (h = []) then ret false
  else
    last_move <- pop_history ;;
    let inverse :=
      if endswith last_move "'" then drop_last last_move
      else if endswith last_move "2" then last_move
      else (last_move ++ "'")%string in
    history_backup <- read_history ;;
    execute_move inverse ;;
    write_history history_backup ;;
    ret true.

(** [Solver._get_inverse_move] *)
Definition _get_inverse_move (move : string) : string :=
  let move := strip move in
  if endswith move "2" then move
  else if endswith move "'" then drop_last move
  else (move ++ "'")%string.

(** What [Solver.solve] returns: one of its two fixed messages or the
    space-joined inverse moves.  Both messages begin with a character that
    no move notation contains, which is how [solve_and_apply] tells them
    from a solution. *)
Inductive solve_result : Type :=
| AlreadySolved
| Solution (moves : string)
| NoHistory.

Definition solve : M solve_result :=
  solved <- is_solved ;;
  if solved : bool then ret AlreadySolved
  else
    h <- read_history ;;
    if bool_decide (h ≠ [])
    then ret (Solution (join (_get_inverse_move <$> reverse h)))
    else ret NoHistory.

Definition solve_and_apply : M solve_result :=
  solution <- solve ;;
  match solution with
  | Solution s => execute_algorithm s ;; ret solution
  | _ => ret solution
  end.

(** [random.choice(l)] returns one element of the non-empty [l]; the
    draw is supplied from outside as a number [k], read modulo the length. *)
Definition choice {A} (k : nat) (l : list A) : M A :=
  index l (k mod length l).

(** The loop of [scramble], one pair of draws per iteration. *)
Fixpoint scramble_loop (draws : list (nat * nat)) (last_move : option string)
    (scramble_moves : list string) : M (list string) :=
  match draws with
  | [] => ret scramble_moves
  | (k1, k2) :: draws' =>
      let moves := ["U"; "D"; "F"; "B"; "L"; "R"] in
      let modifiers := [EmptyString; "'"; "2"] in
      let available_moves := filter (λ m, Some m ≠ last_move) moves in
      move <- choice k1 available_moves ;;
      modifier <- choice k2 modifiers ;;
      execute_move (move ++ modifier)%string ;;
      scramble_loop draws' (Some move)
        (scramble_moves ++ [(move ++ modifier)%string])
  end.

(** [scramble(num_moves)] with [num_moves = length draws]. *)
Definition scramble (draws : list (nat * nat)) : M string :=
  scramble_moves <- scramble_loop draws None [] ;;
  ret (join scramble_moves).

(** ** Well-formed grids and the six faces *)

(** Six faces of three rows of three cells: the shape the constructor
    builds and every method expects. *)
Definition wf_faces (fs : list (list (list string))) : Prop :=
  length fs = 6 ∧
  Forall (λ face, length face = 3 ∧
                  Forall (λ row : list string, length row = 3) face) fs.

Definition wf_cube (cu : Cube) : Prop := wf_faces (faces cu).

Inductive face : Type := Up | Down | Front | Back | Left | Right.

Definition all_faces : list face := [Up; Down; Front; Back; Left; Right].

Definition letter (f : face) : string :=
  match f with
  | Up => "U" | Down => "D" | Front => "F"
  | Back => "B" | Left => "L" | Right => "R"
  end.

Definition face_index (f : face) : nat :=
  match f with
  | Up => U | Down => D | Front => F
  | Back => B | Left => L | Right => R
  end.

(** The method [move_map] binds to the letter of [f]. *)
Definition move_of (f : face) : bool → M unit :=
  match f with
  | Up => move_U | Down => move_D | Front => move_F
  | Back => move_B | Left => move_L | Right => move_R
  end.

(** The entry a face method appends to the log. *)
Definition notation (f : face) (prime : bool) : string :=
  if prime then (letter f ++ "'")%string else letter f.

(** The grid and the log a computation leaves behind. *)
Definition faces_after {A} (m : M A) (cu : Cube)
  : option (list (list (list string))) :=
  match m cu with Some (_, cu') => Some (faces cu') | None => None end.

Definition history_after {A} (m : M A) (cu : Cube) : option (list string) :=
  match m cu with Some (_, cu') => Some (move_history cu') | None => None end.

(** The grid a face method leaves, read off the method itself. *)
Definition turn (f : face) (prime : bool) (fs : list (list (list string)))
  : list (list (list string)) :=
  default fs (faces_after (move_of f prime) (mkCube fs [])).

Definition turns (l : list (face * bool)) (fs : list (list (list string)))
  : list (list (list string)) :=
  foldl (λ fs' '(f, prime), turn f prime fs') fs l.

(** The cube obtained from a new one by the face methods of [l], in order. *)
Definition logged (l : list (face * bool)) : Cube :=
  mkCube (turns l _create_solved_cube) (uncurry notation <$> l).

(** The face methods that undo those of [l]. *)
Definition inverse_turns (l : list (face * bool)) : list (face * bool) :=
  (λ '(f, prime), (f, negb prime)) <$> reverse l.

(** The face letter [execute_move] looks up for a token: the token
    stripped, without a final [2], then without a final quote. *)
Definition is_double (t : string) : bool := endswith (strip t) "2".

Definition sans_double (t : string) : string :=
  if is_double t then drop_last (strip t) else strip t.

Definition is_prime (t : string) : bool := endswith (sans_double t) "'".

Definition base (t : string) : string :=
  if is_prime t then drop_last (sans_double t) else sans_double t.

Definition face_of_letter (m : string) : option face :=
  snd <$> list_find (λ f, letter f = m) all_faces.

(** The face part of a token as the grammar reads it, without the
    stripping of white space: the token without a final [2], then without a
    final quote. *)
Definition face_part (t : string) : string :=
  let t := if endswith t "2" then drop_last t else t in
  if endswith t "'" then drop_last t else t.

(** The face methods one call of [execute_move] runs. *)
Definition turns_of (t : string) : list (face * bool) :=
  if bool_decide (strip t = EmptyString) then []
  else match face_of_letter (base t) with
       | Some f => if is_double t then [(f, is_prime t); (f, is_prime t)]
                   else [(f, is_prime t)]
       | None => []
       end.

(** The eighteen tokens of the grammar: a face letter, bare, primed or
    doubled. *)
Definition well_formed_tokens : list string :=
  f ← all_faces; m ← [EmptyString; "'"; "2"]; [(letter f ++ m)%string].

(** The 54 facelets, face by face, row by row. *)
Definition facelets (cu : Cube) : list string := concat (concat (faces cu)).

(** A cube whose grid is what replaying its own log on a new cube gives. *)
Definition replayed (cu : Cube) : Prop :=
  execute_moves (move_history cu) new_cube = Some (tt, cu).

(** The cubes the operations produce from a new cube. *)
Inductive reachable : Cube → Prop :=
| reach_new : reachable new_cube
| reach_move t cu cu' :
    reachable cu → execute_move t cu = Some (tt, cu') → reachable cu'
| reach_reset cu cu' :
    reachable cu → reset cu = Some (tt, cu') → reachable cu'
| reach_undo cu b cu' :
    reachable cu → undo_move cu = Some (b, cu') → reachable cu'.

(** ** The cells of a grid *)

Definition sticker : Type := face * nat * nat.

Definition cell (fs : list (list (list string))) (s : sticker) : option string :=
  let '(g, r, c) := s in
  fc ← fs !! face_index g; row ← fc !! r; row !! c.

(** Where [_rotate_face_clockwise] puts the content of cell [(r, c)]:
    the new row [i] is the old column [i] read bottom-up. *)
Definition rot_dest (p : nat * nat) : nat * nat := (p.2, 2 - p.1).

Definition corner_cells : list (nat * nat) := [(0, 0); (0, 2); (2, 2); (2, 0)].
Definition edge_cells : list (nat * nat) := [(0, 1); (1, 2); (2, 1); (1, 0)].
Definition non_center : list (nat * nat) := corner_cells ++ edge_cells.

(** [σ] describes what the own-grid rotation of face [f] does to cells. *)
Definition acts_as (f : face) (σ : nat * nat → nat * nat) : Prop :=
  ∀ cu, wf_cube cu →
    ∃ cu', _rotate_face_clockwise (face_index f) cu = Some (tt, cu') ∧
           ∀ r c, r < 3 → c < 3 →
             cell (faces cu') (f, (σ (r, c)).1, (σ (r, c)).2)
             = cell (faces cu) (f, r, c).

(** [σ] moves every cell of [cells] to every other by iteration: the
    cells form one cycle. *)
Definition single_cycle (σ : nat * nat → nat * nat) (cells : list (nat * nat)) : Prop :=
  ∀ p q, p ∈ cells → q ∈ cells → ∃ k, Nat.iter k σ p = q.

(** Four cells that [σ] sends round in a ring. *)
Definition four_cycle (σ : nat * nat → nat * nat) (cells : list (nat * nat)) : Prop :=
  NoDup cells ∧ σ <$> cells = rotate 1 cells ∧ length cells = 4.

(** A cube whose Up face carries nine different labels. *)
Definition labelled_cube : Cube :=
  mkCube ([ ["a"; "b"; "c"]; ["d"; "e"; "f"]; ["g"; "h"; "i"] ]
          :: drop 1 _create_solved_cube) [].

(** ** The rigid quarter turn, from the geometry of the net *)

(** The reference the face methods are compared with follows the words of
    the specification, not the source: the cube is the set of 26 outer
    cubies at integer positions in [-1, 1]^3, x from Left to Right, y from
    Down to Up, z from Back to Front; a sticker is a cubie position and an
    outward normal.  The grids are laid out as in the net [__str__] prints:
    Up above Front, then Left, Front, Right, Back side by side, Down below
    Front. *)
Module Geometry.
Local Open Scope Z_scope.

Definition vec : Type := Z * Z * Z.

Definition cross (a b : vec) : vec :=
  let '(a1, a2, a3) := a in
  let '(b1, b2, b3) := b in
  (a2 * b3 - a3 * b2, a3 * b1 - a1 * b3, a1 * b2 - a2 * b1).

Definition dot (a b : vec) : Z :=
  let '(a1, a2, a3) := a in
  let '(b1, b2, b3) := b in
  a1 * b1 + a2 * b2 + a3 * b3.

(** [k * a + b] *)
Definition axpy (k : Z) (a b : vec) : vec :=
  let '(a1, a2, a3) := a in
  let '(b1, b2, b3) := b in
  (k * a1 + b1, k * a2 + b2, k * a3 + b3).

Definition normal (f : face) : vec :=
  match f with
  | Up => (0, 1, 0) | Down => (0, -1, 0)
  | Front => (0, 0, 1) | Back => (0, 0, -1)
  | Left => (-1, 0, 0) | Right => (1, 0, 0)
  end.

(** The cubie that carries cell [(r, c)] of face [f]. *)
Definition place (f : face) (r c : nat) : vec :=
  let x := Z.of_nat c - 1 in
  let y := Z.of_nat r - 1 in
  match f with
  | Up => (x, 1, y)
  | Down => (x, -1, - y)
  | Front => (x, - y, 1)
  | Back => (- x, - y, -1)
  | Left => (-1, - y, x)
  | Right => (1, - y, - x)
  end.

Definition all_stickers : list sticker :=
  f ← all_faces; r ← seq 0 3; c ← seq 0 3; [(f, r, c)].

Definition locate (pos nrm : vec) : option sticker :=
  snd <$> list_find
    (λ s : sticker, let '(g, r, c) := s in place g r c = pos ∧ normal g = nrm)
    all_stickers.

(** A quarter turn about the axis [n], counter-clockwise for an observer
    who looks at the face from outside. *)
Definition rot_ccw (n v : vec) : vec := axpy (dot v n) n (cross n v).

(** The sticker whose content a clockwise quarter turn of [f] brings to
    [s]: the one a counter-clockwise quarter turn away when the cubie of
    [s] lies in the layer of [f], and [s] itself otherwise. *)
Definition source (f : face) (s : sticker) : sticker :=
  let '(g, r, c) := s in
  if decide (dot (place g r c) (normal f) = 1)
  then default s (locate (rot_ccw (normal f) (place g r c))
                         (rot_ccw (normal f) (normal g)))
  else s.
End Geometry.

(** The grid after a rigid clockwise quarter turn of the layer of [f]. *)
Definition quarter_turn (f : face) (fs : list (list (list string)))
  : option (list (list (list string))) :=
  mapM (λ g,
    mapM (λ r,
      mapM (λ c, cell fs (Geometry.source f (g, r, c))) (seq 0 3))
      (seq 0 3))
    all_faces.

(** ** Further operations of the three modules *)

(** [get_solution] of [solver.py]: a [Solver] on the cube, then [solve]. *)
Definition get_solution : M solve_result := solve.

(** [get_face]: the grid of one face, as a copy. *)
Definition get_face (face_idx : nat) : M (list (list string)) :=
  read_face face_idx.

(** [undo_move] called [n] times, with the flags it returned. *)
Fixpoint undo_times (n : nat) : M (list bool) :=
  match n with
  | 0 => ret []
  | S n' => b <- undo_move ;; bs <- undo_times n' ;; ret (b :: bs)
  end.

Section CommandLine.

(** [str.upper], a built-in the command loop calls; the branch below does
    not depend on what it does to a character. *)
Variable upper : string → string.

(** The list [valid_moves] of [main]. *)
Definition valid_moves : list string :=
  [ "U"; "U'"; "U2"; "D"; "D'"; "D2";
    "F"; "F'"; "F2"; "B"; "B'"; "B2";
    "L"; "L'"; "L2"; "R"; "R'"; "R2" ].

(** The last branch of the loop of [main], taken when the first word of
    the line is no command: the line is read as moves.  The flag is
    [all_valid]; the printed lines and [display] are not modelled. *)
Definition move_command (user_input : string) : M bool :=
  let moves := split (upper user_input) in
  let all_valid := forallb (λ move, bool_decide (move ∈ valid_moves)) moves in
  if all_valid then execute_moves moves ;; ret true
  else ret false.

End CommandLine.

(** *** The net [__str__] prints

    The text of the net holds the full block U+2588, so it is modelled as
    the sequence of its code points, of any size. *)

(** The code points of a string of the source that has none above 255. *)
Definition text (s : string) : list N := N_of_ascii <$> list_ascii_of_string s.

(** One entry of [COLORS]: ESC, the colour code, the full block, ESC, the
    reset code. *)
Definition block (code : string) : list N :=
  27%N :: text code ++ 9608%N :: 27%N :: text "[0m".

(** The dictionary [COLORS] of the class. *)
Definition COLORS : gmap string (list N) :=
  list_to_map
    [ ("W", block "[97m"); ("Y", block "[93m"); ("G", block "[92m");
      ("B", block "[94m"); ("O", block "[38;5;208m"); ("R", block "[91m") ].

(** [sep.join(parts)] on texts. *)
Fixpoint join_text (sep : list N) (parts : list (list N)) : list N :=
  match parts with
  | [] => []
  | [x] => x
  | x :: parts' => x ++ sep ++ join_text sep parts'
  end.

(** [' '.join(self.COLORS[c] for c in row)]; a cell that is no key of
    [COLORS] raises KeyError, here [None]. *)
Definition paint (row : list string) : option (list N) :=
  blocks ← mapM (λ c, COLORS !! c) row;
  Some (join_text (text " ") blocks).

(** [__str__]: three indented lines for Up, an empty line, three lines
    with a row each of Left, Front, Right and Back, an empty line, three
    indented lines for Down, joined by line feeds. *)
Definition __str__ : M (list N) :=
  λ cu,
    up ← faces cu !! U;
    top ← mapM (λ row, line ← paint row; Some (text "      " ++ line)) up;
    middle ← mapM (λ i,
                l ← (fc ← faces cu !! L; row ← fc !! i; paint row);
                f ← (fc ← faces cu !! F; row ← fc !! i; paint row);
                r ← (fc ← faces cu !! R; row ← fc !! i; paint row);
                b ← (fc ← faces cu !! B; row ← fc !! i; paint row);
                Some (((([] ++ (l ++ text " ")) ++ (f ++ text " "))
                       ++ (r ++ text " ")) ++ b))
              (seq 0 3);
    down ← faces cu !! D;
    bottom ← mapM (λ row, line ← paint row; Some (text "      " ++ line)) down;
    Some (join_text [10%N] (top ++ [[]] ++ middle ++ [[]] ++ bottom), cu).

(** The text of a colour letter in the net, empty for any other string. *)
Definition glyph (c : string) : list N := default [] (COLORS !! c).

(** A cube all of whose cells hold one of the six colour letters. *)
Definition coloured (cu : Cube) : Prop :=
  Forall (λ c, c ∈ FACE_COLORS) (facelets cu).

(** ** Vocabulary of the further properties *)

Definition opposite (f : face) : face :=
  match f with
  | Up => Down | Down => Up
  | Front => Back | Back => Front
  | Left => Right | Right => Left
  end.

(** The twelve entries the face methods write to the log. *)
Definition quarter_notations : list string :=
  f ← all_faces; prime ← [false; true]; [notation f prime].

(** A face of nine cells of one colour. *)
Definition uniform (fc : list (list string)) : Prop :=
  ∃ color, fc = replicate 3 (replicate 3 color).

(** A string of white space only. *)
Definition blank (s : string) : Prop :=
  Forall (λ ch, is_space ch = true) (list_ascii_of_string s).

(** Draws that make [scramble] choose U, D, U', D', [k] times over. *)
Definition idle_draws (k : nat) : list (nat * nat) :=
  concat (replicate k [(0, 0); (0, 0); (0, 1); (0, 1)]).

(** The face a token of the grammar turns. *)
Definition token_face (t : string) : option face := face_of_letter (base t).

(** Every token of [ts] turns a face, and never the face of the token
    before it; [last] is the face before the first token, if any. *)
Fixpoint faces_alternate (last : option face) (ts : list string) : Prop :=
  match ts with
  | [] => True
  | t :: ts' =>
      match token_face t with
      | Some g => Some g ≠ last ∧ faces_alternate (Some g) ts'
      | None => False
      end
  end.

(** * Proofs *)

(** Turns a well-formedness hypothesis into 54 named cells. *)
Ltac explode_shape :=
  repeat match goal with
  | H : _ ∧ _ |- _ => destruct H
  | H : length ?l = S _ |- _ =>
      destruct l; simpl in H; [discriminate H | injection H as H]
  | H : length ?l = 0 |- _ => destruct l; [clear H | discriminate H]
  | H : Forall _ (_ :: _) |- _ => apply Forall_cons in H; cbv beta in H
  | H : Forall _ [] |- _ => clear H
  end.

Ltac explode_faces H := unfold wf_faces in H; explode_shape.

Section Monad.
Context {X Y : Type}.

Lemma bind_run (m : M X) (k : X → M Y) cu a cu' :
  m cu = Some (a, cu') → (x <- m ;; k x) cu = k a cu'.
Proof. intros H. unfold bind. now rewrite H. Qed.

Lemma bind_inv (m : M X) (k : X → M Y) cu r :
  (x <- m ;; k x) cu = Some r →
  ∃ a cu', m cu = Some (a, cu') ∧ k a cu' = Some r.
Proof.
  unfold bind. destruct (m cu) as [[a cu']|]; [|discriminate].
  intros H. now exists a, cu'.
Qed.
End Monad.

(** ** Face methods on well-formed grids *)

Lemma wf_solved : wf_faces _create_solved_cube.
Proof. vm_compute. repeat constructor. Qed.

Lemma move_of_run f prime fs h :
  wf_faces fs →
  move_of f prime (mkCube fs h)
  = Some (tt, mkCube (turn f prime fs) (h ++ [notation f prime])).
Proof.
  intros H. explode_faces H.
  destruct f, prime; vm_compute; reflexivity.
Qed.

Lemma turn_wf f prime fs : wf_faces fs → wf_faces (turn f prime fs).
Proof.
  intros H. explode_faces H.
  destruct f, prime; vm_compute; repeat constructor.
Qed.

Lemma turns_wf l fs : wf_faces fs → wf_faces (turns l fs).
Proof.
  revert fs. induction l as [|[f p] l IH]; intros fs H; [exact H|].
  apply IH, turn_wf, H.
Qed.

Lemma turns_app l1 l2 fs : turns (l1 ++ l2) fs = turns l2 (turns l1 fs).
Proof. apply foldl_app. Qed.

Lemma turn_four_times f fs :
  wf_faces fs →
  turn f false (turn f false (turn f false (turn f false fs))) = fs.
Proof.
  intros H. explode_faces H.
  destruct f; vm_compute; reflexivity.
Qed.

Lemma turn_negb_turn f prime fs :
  wf_faces fs → turn f (negb prime) (turn f prime fs) = fs.
Proof.
  intros H. explode_faces H.
  destruct f, prime; vm_compute; reflexivity.
Qed.

(** ** The dispatcher *)

Lemma face_of_letter_letter f : face_of_letter (letter f) = Some f.
Proof. destruct f; reflexivity. Qed.

Lemma face_of_letter_Some m f : face_of_letter m = Some f → m = letter f.
Proof.
  unfold face_of_letter. intros H.
  apply fmap_Some in H as ([i g] & H & ->).
  apply list_find_Some in H as (_ & H & _). now simpl.
Qed.

Lemma face_of_letter_None m : face_of_letter m = None → ∀ f, m ≠ letter f.
Proof.
  intros H f ->. now rewrite face_of_letter_letter in H.
Qed.

Lemma move_map_lookup m : move_map !! m = move_of <$> face_of_letter m.
Proof.
  destruct (face_of_letter m) as [f|] eqn:E.
  - apply face_of_letter_Some in E as ->. destruct f; reflexivity.
  - simpl. apply not_elem_of_list_to_map_1. simpl.
    pose proof (face_of_letter_None m E) as N.
    intros Hin. repeat (apply elem_of_cons in Hin as [->|Hin]);
      [ apply (N Up) | apply (N Down) | apply (N Front)
      | apply (N Back) | apply (N Left) | apply (N Right) | ];
      try reflexivity.
    now apply elem_of_nil in Hin.
Qed.

Lemma execute_move_unfold t :
  execute_move t =
  if bool_decide (strip t = EmptyString) then ret tt
  else match move_map !! base t with
       | Some method =>
           if is_double t then method (is_prime t) ;; method (is_prime t)
           else method (is_prime t)
       | None => ret tt
       end.
Proof. reflexivity. Qed.

Lemma execute_move_run t fs h :
  wf_faces fs →
  execute_move t (mkCube fs h)
  = Some (tt, mkCube (turns (turns_of t) fs)
                     (h ++ (uncurry notation <$> turns_of t))).
Proof.
  intros H. rewrite execute_move_unfold. unfold turns_of.
  destruct (bool_decide (strip t = EmptyString)).
  { simpl. now rewrite app_nil_r. }
  rewrite move_map_lookup.
  destruct (face_of_letter (base t)) as [f|]; simpl.
  2: { now rewrite app_nil_r. }
  destruct (is_double t); simpl.
  - erewrite bind_run by (apply move_of_run, H).
    rewrite move_of_run by (apply turn_wf, H).
    now rewrite <- app_assoc.
  - now rewrite move_of_run.
Qed.

Lemma execute_move_wf t cu :
  wf_cube cu → ∃ cu', execute_move t cu = Some (tt, cu') ∧ wf_cube cu'.
Proof.
  destruct cu as [fs h]. intros H. eexists. split.
  - apply execute_move_run, H.
  - apply turns_wf, H.
Qed.

Lemma execute_moves_run ts fs h :
  wf_faces fs →
  execute_moves ts (mkCube fs h)
  = Some (tt, mkCube (turns (ts ≫= turns_of) fs)
                     (h ++ (uncurry notation <$> (ts ≫= turns_of)))).
Proof.
  revert fs h. induction ts as [|t ts IH]; intros fs h H; simpl.
  - now rewrite app_nil_r.
  - erewrite bind_run by (apply execute_move_run, H).
    rewrite IH by (apply turns_wf, H).
    rewrite turns_app, fmap_app, app_assoc. reflexivity.
Qed.

Lemma turns_of_letter f : turns_of (letter f) = [(f, false)].
Proof. destruct f; reflexivity. Qed.

Lemma turns_of_prime f : turns_of (letter f ++ "'") = [(f, true)].
Proof. destruct f; reflexivity. Qed.

Lemma turns_of_double f : turns_of (letter f ++ "2") = [(f, false); (f, false)].
Proof. destruct f; reflexivity. Qed.

Lemma turns_of_notation f prime : turns_of (notation f prime) = [(f, prime)].
Proof. destruct prime; [apply turns_of_prime | apply turns_of_letter]. Qed.

Lemma not_a_face_letter m :
  m ∉ letter <$> all_faces → face_of_letter m = None.
Proof.
  intros N. destruct (face_of_letter m) as [f|] eqn:E; [|reflexivity].
  apply face_of_letter_Some in E as ->. exfalso. apply N.
  destruct f; simpl; set_solver.
Qed.

Lemma turns_of_rejected t :
  base t ∉ letter <$> all_faces → turns_of t = [].
Proof.
  intros N. unfold turns_of. rewrite (not_a_face_letter _ N).
  now destruct (bool_decide _).
Qed.

(** ** Repeated turns, inverse turns and the log *)

(** C2. From a new cube, running the algorithm R U R' U' six times, 24
    moves in all, ends in a cube on which [is_solved] answers true. *)
Theorem C2_sexy_move_six_times :
  ∃ cu', for_range 6 (λ _, execute_algorithm "R U R' U'") new_cube = Some (tt, cu')
         ∧ length (move_history cu') = 24
         ∧ is_solved cu' = Some (true, cu').
Proof.
  exists (mkCube _create_solved_cube
            (concat (replicate 6 ["R"; "U"; "R'"; "U'"]))).
  repeat split; vm_compute; reflexivity.
Qed.

(** C3. On every well-formed cube and for every face, four clockwise
    quarter turns in a row, called as methods or dispatched from the bare
    letter, run without error and leave the 54 cells as they were. *)
Theorem C3_four_quarter_turns_restore (f : face) (cu : Cube) :
  wf_cube cu →
  (∃ cu', for_range 4 (λ _, move_of f false) cu = Some (tt, cu')
          ∧ faces cu' = faces cu)
  ∧ (∃ cu', for_range 4 (λ _, execute_move (letter f)) cu = Some (tt, cu')
            ∧ faces cu' = faces cu).
Proof.
  destruct cu as [fs h]. unfold wf_cube. simpl. intros H.
  pose proof (turn_wf f false _ H) as H1.
  pose proof (turn_wf f false _ H1) as H2.
  pose proof (turn_wf f false _ H2) as H3.
  split.
  - assert (for_range 4 (λ _, move_of f false) (mkCube fs h)
            = Some (tt, mkCube (turn f false (turn f false (turn f false (turn f false fs))))
                               (h ++ replicate 4 (letter f)))) as ->.
    { unfold for_range; simpl.
      do 4 (erewrite bind_run by (apply move_of_run; assumption)).
      simpl. now rewrite <- !app_assoc. }
    eexists; split; [reflexivity|]. apply (turn_four_times f fs H).
  - assert (for_range 4 (λ _, execute_move (letter f)) (mkCube fs h)
            = Some (tt, mkCube (turn f false (turn f false (turn f false (turn f false fs))))
                               (h ++ replicate 4 (letter f)))) as ->.
    { unfold for_range; simpl.
      do 4 (erewrite bind_run
              by (rewrite execute_move_run, turns_of_letter by assumption;
                  reflexivity)).
      simpl. now rewrite <- !app_assoc. }
    eexists; split; [reflexivity|]. apply (turn_four_times f fs H).
Qed.

Lemma C3_witness :
  (∃ cu', for_range 4 (λ _, move_of Front false) new_cube = Some (tt, cu')
          ∧ faces cu' = faces new_cube)
  ∧ (∃ cu', for_range 4 (λ _, execute_move (letter Front)) new_cube = Some (tt, cu')
            ∧ faces cu' = faces new_cube).
Proof. apply (C3_four_quarter_turns_restore Front new_cube). apply wf_solved. Defined.

(** C4. On every well-formed cube and for every face, the clockwise turn
    followed by the primed turn leaves the 54 cells as they were, and so
    does the primed turn followed by the clockwise one: each is the inverse
    of the other.  Both entries are logged. *)
Theorem C4_prime_is_inverse (f : face) (cu : Cube) :
  wf_cube cu →
  (∃ cu', (move_of f false ;; move_of f true) cu = Some (tt, cu')
          ∧ faces cu' = faces cu
          ∧ move_history cu' = move_history cu ++ [letter f; (letter f ++ "'")%string])
  ∧ (∃ cu', (move_of f true ;; move_of f false) cu = Some (tt, cu')
            ∧ faces cu' = faces cu
            ∧ move_history cu' = move_history cu ++ [(letter f ++ "'")%string; letter f]).
Proof.
  destruct cu as [fs h]. unfold wf_cube. simpl. intros H.
  split.
  - erewrite bind_run by (apply move_of_run, H).
    rewrite move_of_run by (apply turn_wf, H).
    eexists; split; [reflexivity|]. simpl. split.
    + apply (turn_negb_turn f false fs H).
    + now rewrite <- app_assoc.
  - erewrite bind_run by (apply move_of_run, H).
    rewrite move_of_run by (apply turn_wf, H).
    eexists; split; [reflexivity|]. simpl. split.
    + apply (turn_negb_turn f true fs H).
    + now rewrite <- app_assoc.
Qed.

Lemma C4_witness :
  (∃ cu', (move_of Left false ;; move_of Left true) new_cube = Some (tt, cu')
          ∧ faces cu' = faces new_cube
          ∧ move_history cu' = move_history new_cube ++ ["L"; "L'"])
  ∧ (∃ cu', (move_of Left true ;; move_of Left false) new_cube = Some (tt, cu')
            ∧ faces cu' = faces new_cube
            ∧ move_history cu' = move_history new_cube ++ ["L'"; "L"]).
Proof. apply (C4_prime_is_inverse Left new_cube). apply wf_solved. Defined.

(** C7 at the token U2 on a new cube, where the code and the claim part:
    the dispatcher calls the face method twice and each call appends, so
    the log receives the two entries U, U and not the one entry U2.  The
    readers of the log, [undo_move] and [_get_inverse_move], both provide
    for an entry that ends in 2, which no writer produces. *)
Lemma C7_double_token_logged_as_two_quarter_turns :
  history_after (execute_move "U2") new_cube = Some ["U"; "U"].
Proof. reflexivity. Qed.

(** What one token writes to the log, on every well-formed cube and for
    every face letter X: the token X appends the one entry X and the token
    X' the one entry X', as they were given; the token X2 appends the two
    entries X, X; a token whose face letter is none of the six appends
    nothing. *)
Lemma log_entries_of_a_token (f : face) (cu : Cube) :
  wf_cube cu →
  history_after (execute_move (letter f)) cu
    = Some (move_history cu ++ [letter f])
  ∧ history_after (execute_move (letter f ++ "'")) cu
    = Some (move_history cu ++ [(letter f ++ "'")%string])
  ∧ history_after (execute_move (letter f ++ "2")) cu
    = Some (move_history cu ++ [letter f; letter f])
  ∧ ∀ t, base t ∉ letter <$> all_faces →
         history_after (execute_move t) cu = Some (move_history cu).
Proof.
  destruct cu as [fs h]. unfold wf_cube, history_after. simpl. intros H.
  repeat split; [| | |intros t N]; rewrite execute_move_run by exact H; simpl.
  - now rewrite turns_of_letter.
  - now rewrite turns_of_prime.
  - now rewrite turns_of_double.
  - now rewrite (turns_of_rejected t N), app_nil_r.
Qed.

Lemma log_entries_of_a_token_witness :
  history_after (execute_move "R") new_cube = Some ["R"]
  ∧ history_after (execute_move "R'") new_cube = Some ["R'"]
  ∧ history_after (execute_move "R2") new_cube = Some ["R"; "R"]
  ∧ ∀ t, base t ∉ letter <$> all_faces →
         history_after (execute_move t) new_cube = Some [].
Proof. apply (log_entries_of_a_token Right new_cube). apply wf_solved. Defined.

Lemma execute_move_rejected t cu :
  base t ∉ letter <$> all_faces → execute_move t cu = Some (tt, cu).
Proof.
  intros N. rewrite execute_move_unfold.
  destruct (bool_decide (strip t = EmptyString)); [reflexivity|].
  now rewrite move_map_lookup, (not_a_face_letter _ N).
Qed.

Lemma rstrip_clean t :
  Forall (λ ch, is_space ch = false) (list_ascii_of_string t) → rstrip t = t.
Proof.
  induction t as [|ch t IH]; [reflexivity|]. simpl.
  intros H. apply Forall_cons in H as [Hch H].
  rewrite IH by exact H. rewrite Hch. now destruct t.
Qed.

(** A token without white space, as [split] produces them, is its own
    [strip], and the face letter looked up is its [face_part]. *)
Lemma strip_clean t :
  Forall (λ ch, is_space ch = false) (list_ascii_of_string t) → strip t = t.
Proof.
  intros H. unfold strip.
  assert (lstrip t = t) as ->.
  { destruct t as [|ch t]; [reflexivity|]. simpl in *.
    apply Forall_cons in H as [-> _]. reflexivity. }
  apply rstrip_clean, H.
Qed.

Lemma base_face_part t : strip t = t → base t = face_part t.
Proof.
  intros E. unfold base, is_prime, sans_double, is_double, face_part.
  now rewrite E.
Qed.

Lemma unknown_face_part_changes_nothing t cu :
  Forall (λ ch, is_space ch = false) (list_ascii_of_string t) →
  face_part t ∉ letter <$> all_faces →
  execute_move t cu = Some (tt, cu).
Proof.
  intros Hc N. apply execute_move_rejected.
  now rewrite base_face_part by (apply strip_clean, Hc).
Qed.

(** C10. On every cube, a token whose face letter (the token without a
    final 2, then without a final quote; the dispatcher strips white space
    around the token before) is none of U, D, F, B, L, R runs without
    error and leaves the grid and the log as they were. *)
Theorem C10_unknown_face_letter_changes_nothing (t : string) (cu : Cube) :
  base t ∉ letter <$> all_faces →
  execute_move t cu = Some (tt, cu).
Proof. apply execute_move_rejected. Qed.

Lemma C10_witness :
  execute_move "X" (mkCube (turn Right false _create_solved_cube) ["R"])
  = Some (tt, mkCube (turn Right false _create_solved_cube) ["R"]).
Proof.
  apply C10_unknown_face_letter_changes_nothing.
  vm_compute. intros N.
  repeat (apply elem_of_cons in N as [N|N]; [discriminate N|]).
  now apply elem_of_nil in N.
Defined.

(** ** Undo *)

Lemma undo_move_empty fs :
  undo_move (mkCube fs []) = Some (false, mkCube fs []).
Proof. reflexivity. Qed.

Lemma undo_move_run fs h t :
  wf_faces fs →
  undo_move (mkCube fs (h ++ [t]))
  = Some (true,
          mkCube (turns (turns_of (if endswith t "'" then drop_last t
                                   else if endswith t "2" then t
                                   else (t ++ "'")%string)) fs) h).
Proof.
  intros H. unfold undo_move.
  erewrite bind_run by reflexivity.
  rewrite bool_decide_eq_false_2 by (now destruct h).
  erewrite bind_run.
  2: { unfold pop_history. simpl. rewrite last_snoc, removelast_last. reflexivity. }
  erewrite bind_run by reflexivity.
  erewrite bind_run by (apply execute_move_run, H).
  reflexivity.
Qed.

Lemma well_formed_tokens_inv t :
  t ∈ well_formed_tokens →
  ∃ f, t = letter f ∨ t = (letter f ++ "'")%string ∨ t = (letter f ++ "2")%string.
Proof.
  intros Hin. vm_compute in Hin.
  repeat (apply elem_of_cons in Hin as [-> | Hin];
          [ first [ exists Up; vm_compute; tauto | exists Down; vm_compute; tauto
                  | exists Front; vm_compute; tauto | exists Back; vm_compute; tauto
                  | exists Left; vm_compute; tauto | exists Right; vm_compute; tauto ] | ]).
  now apply elem_of_nil in Hin.
Qed.

Ltac inverse_is l :=
  match goal with
  | |- turns _ (turns ?x _) = _ =>
      replace x with l by (match goal with f : face |- _ => now destruct f end)
  end.

(** C8. Undo on an empty log answers false and changes nothing.  On a
    well-formed cube whose log ends with a token t, undo answers true and
    leaves exactly the log without t; when t is one of the eighteen tokens
    of the grammar the grid it leaves is the one from which t leads back to
    the grid before the undo, that is, the inverse of t was applied.  In
    particular a new cube after U and one undo is a new cube again. *)
Theorem C8_undo_move (fs : list (list (list string))) (h : list string) (t : string) :
  wf_faces fs →
  undo_move (mkCube fs []) = Some (false, mkCube fs [])
  ∧ (∃ fs', undo_move (mkCube fs (h ++ [t])) = Some (true, mkCube fs' h)
            ∧ wf_faces fs'
            ∧ (t ∈ well_formed_tokens →
               faces_after (execute_move t) (mkCube fs' h) = Some fs))
  ∧ (execute_move "U" ;; undo_move) new_cube = Some (true, new_cube).
Proof.
  intros H. split; [apply undo_move_empty|]. split; [|reflexivity].
  eexists. split; [apply undo_move_run, H|]. split; [apply turns_wf, H|].
  intros Hin. unfold faces_after.
  rewrite execute_move_run by (apply turns_wf, H). simpl. f_equal.
  apply well_formed_tokens_inv in Hin as [f [-> | [-> | ->]]].
  - inverse_is [(f, true)].
    rewrite turns_of_letter. apply (turn_negb_turn f true fs H).
  - inverse_is [(f, false)].
    rewrite turns_of_prime. apply (turn_negb_turn f false fs H).
  - inverse_is [(f, false); (f, false)].
    rewrite turns_of_double. apply (turn_four_times f fs H).
Qed.

Lemma C8_witness :
  let fs := turns [(Right, false); (Front, true)] _create_solved_cube in
  undo_move (mkCube fs []) = Some (false, mkCube fs [])
  ∧ (∃ fs', undo_move (mkCube fs (["R"] ++ ["F'"])) = Some (true, mkCube fs' ["R"])
            ∧ wf_faces fs'
            ∧ faces_after (execute_move "F'") (mkCube fs' ["R"]) = Some fs)
  ∧ (execute_move "U" ;; undo_move) new_cube = Some (true, new_cube).
Proof.
  intros fs.
  destruct (C8_undo_move fs ["R"] "F'") as (E & (fs' & Hu & Hwf & Hinv) & HU).
  { apply turns_wf, wf_solved. }
  split; [exact E|]. split; [|exact HU].
  exists fs'. split; [exact Hu|]. split; [exact Hwf|].
  apply Hinv. vm_compute. repeat constructor.
Defined.

(** ** Facelets are only moved *)

(** Finds [x] in the explicit list [r]: the part before it and the part after. *)
Ltac split_at x r :=
  lazymatch r with
  | x :: ?t => constr:((@nil string, t))
  | ?y :: ?t =>
      let p := split_at x t in
      lazymatch p with (?a, ?b) => constr:((y :: a, b)) end
  end.

(** Proves that one explicit list of variables is a rearrangement of another. *)
Ltac rearrangement :=
  repeat lazymatch goal with
  | |- Permutation [] [] => apply perm_nil
  | |- Permutation (?x :: ?l) (?x :: ?r) => apply perm_skip
  | |- Permutation (?x :: ?l) ?r =>
      let p := split_at x r in
      lazymatch p with
      | (?a, ?b) => apply (Permutation_cons_app a b x); cbn [app]
      end
  end.

Lemma turn_facelets f prime fs :
  wf_faces fs →
  concat (concat (turn f prime fs)) ≡ₚ concat (concat fs).
Proof.
  intros H. explode_faces H.
  destruct f, prime; vm_compute; rearrangement.
Qed.

Lemma turns_facelets l fs :
  wf_faces fs →
  concat (concat (turns l fs)) ≡ₚ concat (concat fs).
Proof.
  revert fs. induction l as [|[f p] l IH]; intros fs H; [reflexivity|].
  simpl. rewrite IH by (apply turn_wf, H). apply turn_facelets, H.
Qed.

(** ** What the operations reach *)

Lemma logged_wf l : wf_cube (logged l).
Proof. apply turns_wf, wf_solved. Qed.

Lemma bind_turns_of_notation l :
  (uncurry notation <$> l) ≫= turns_of = l.
Proof.
  induction l as [|[f p] l IH]; [reflexivity|].
  rewrite fmap_cons, bind_cons, IH. simpl. now rewrite turns_of_notation.
Qed.

Lemma replayed_logged cu : replayed cu ↔ ∃ l, cu = logged l.
Proof.
  unfold replayed, new_cube. split.
  - rewrite execute_moves_run by apply wf_solved. simpl.
    intros [= <-]. now eexists.
  - intros [l ->]. rewrite execute_moves_run by apply wf_solved. simpl.
    now rewrite bind_turns_of_notation.
Qed.

Lemma reachable_logged cu : reachable cu → ∃ l, cu = logged l.
Proof.
  induction 1 as [|t cu cu' _ [l ->] E|cu cu' _ _ E|cu b cu' _ [l ->] E].
  - now exists [].
  - unfold logged in E. rewrite execute_move_run in E by apply logged_wf.
    injection E as <-. exists (l ++ turns_of t).
    unfold logged. now rewrite turns_app, fmap_app.
  - injection E as <-. now exists [].
  - destruct l as [|[f p] l _] using rev_ind.
    + injection E as _ <-. now exists [].
    + unfold logged in E. rewrite fmap_app, turns_app in E. simpl in E.
      rewrite undo_move_run in E by apply turn_wf, logged_wf.
      injection E as _ <-. exists l. unfold logged. f_equal.
      replace (turns_of _) with [(f, negb p)] by (now destruct f, p).
      simpl. apply turn_negb_turn, logged_wf.
Qed.

Lemma reachable_replayed cu : reachable cu → replayed cu.
Proof. intros H. apply replayed_logged, reachable_logged, H. Qed.

Lemma reachable_wf cu : reachable cu → wf_cube cu.
Proof. intros H. apply reachable_logged in H as [l ->]. apply logged_wf. Qed.

(** C5. On every cube the operations reach from a new cube, every
    further sequence of tokens runs without error, and the 54 facelets
    after it are a rearrangement of those before it and of those of the
    new cube: 54 cells, each of the six colours on exactly nine of them. *)
Theorem C5_facelets_only_permuted (cu : Cube) (ts : list string) :
  reachable cu →
  ∃ cu', execute_moves ts cu = Some (tt, cu')
         ∧ facelets cu' ≡ₚ facelets cu
         ∧ facelets cu' ≡ₚ facelets new_cube
         ∧ length (facelets cu') = 54
         ∧ ∀ color, color ∈ FACE_COLORS →
                    count_occ string_dec (facelets cu') color = 9.
Proof.
  intros Hr. apply reachable_logged in Hr as [l ->].
  unfold logged. rewrite execute_moves_run by apply logged_wf.
  eexists. split; [reflexivity|]. unfold facelets. simpl.
  assert (concat (concat (turns (ts ≫= turns_of) (turns l _create_solved_cube)))
          ≡ₚ concat (concat _create_solved_cube)) as P.
  { rewrite turns_facelets by apply logged_wf.
    apply turns_facelets, wf_solved. }
  split; [apply turns_facelets, logged_wf|].
  split; [exact P|].
  split; [now rewrite P|].
  intros color Hin.
  rewrite (proj1 (Permutation_count_occ string_dec _ _) P color).
  vm_compute in Hin.
  repeat (apply elem_of_cons in Hin as [-> | Hin]; [reflexivity|]).
  now apply elem_of_nil in Hin.
Qed.

Lemma C5_witness :
  ∃ cu', execute_moves ["F2"; "X"; "L'"] (logged [(Right, false); (Up, false)])
         = Some (tt, cu')
         ∧ facelets cu' ≡ₚ facelets (logged [(Right, false); (Up, false)])
         ∧ facelets cu' ≡ₚ facelets new_cube
         ∧ length (facelets cu') = 54
         ∧ ∀ color, color ∈ FACE_COLORS →
                    count_occ string_dec (facelets cu') color = 9.
Proof.
  apply (C5_facelets_only_permuted (logged [(Right, false); (Up, false)])).
  apply (reach_move "U" (logged [(Right, false)])); [|reflexivity].
  apply (reach_move "R" new_cube); [|reflexivity].
  apply reach_new.
Defined.

(** ** The history inverter *)

Lemma get_inverse_move_notation f prime :
  _get_inverse_move (notation f prime) = notation f (negb prime).
Proof. destruct f, prime; reflexivity. Qed.

Lemma inverse_moves_logged l :
  _get_inverse_move <$> reverse (uncurry notation <$> l)
  = uncurry notation <$> inverse_turns l.
Proof.
  unfold inverse_turns. rewrite <- fmap_reverse, <- !list_fmap_compose.
  apply list_fmap_ext. intros _ [f p] _. apply get_inverse_move_notation.
Qed.

Lemma turns_inverse_turns l fs :
  wf_faces fs → turns (inverse_turns l) (turns l fs) = fs.
Proof.
  revert fs. induction l as [|[f p] l IH]; intros fs H; [reflexivity|].
  unfold inverse_turns. rewrite reverse_cons, fmap_app, turns_app.
  fold (inverse_turns l). simpl. rewrite IH by (apply turn_wf, H).
  apply turn_negb_turn, H.
Qed.

Lemma split_from_notation f prime rest :
  split_from EmptyString (notation f prime ++ " " ++ rest)
  = notation f prime :: split_from EmptyString rest.
Proof. destruct f, prime; reflexivity. Qed.

Lemma split_join_notations l :
  split (join (uncurry notation <$> l)) = uncurry notation <$> l.
Proof.
  unfold split. induction l as [|[f p] l IH]; [reflexivity|].
  destruct l as [|[g q] l].
  - destruct f, p; reflexivity.
  - change (join (uncurry notation <$> (f, p) :: (g, q) :: l))
      with (notation f p ++ " " ++ join (uncurry notation <$> (g, q) :: l))%string.
    rewrite split_from_notation, IH. reflexivity.
Qed.

Lemma is_solved_loop_total fs :
  wf_faces fs → is_Some (is_solved_loop fs).
Proof.
  intros [_ H]. induction H as [|fc fs [H3 Hrows] _ IH]; [now eexists|].
  destruct fc as [|row fc]; [discriminate H3|].
  apply Forall_cons in Hrows as [Hrow _].
  destruct row as [|x row]; [discriminate Hrow|].
  simpl. destruct (_ && _); [exact IH | now eexists].
Qed.

Lemma is_solved_new h : is_solved (mkCube _create_solved_cube h)
                        = Some (true, mkCube _create_solved_cube h).
Proof. reflexivity. Qed.

Lemma inverse_moves_run l h :
  execute_moves (_get_inverse_move <$> reverse (uncurry notation <$> l))
                (mkCube (turns l _create_solved_cube) h)
  = Some (tt, mkCube _create_solved_cube
                     (h ++ (uncurry notation <$> inverse_turns l))).
Proof.
  rewrite inverse_moves_logged.
  rewrite execute_moves_run by apply logged_wf.
  rewrite bind_turns_of_notation.
  now rewrite turns_inverse_turns by apply wf_solved.
Qed.

Lemma solve_logged l :
  (solve (logged l) = Some (AlreadySolved, logged l)
   ∧ is_solved (logged l) = Some (true, logged l))
  ∨ solve (logged l)
    = Some (Solution (join (_get_inverse_move <$> reverse (move_history (logged l)))),
            logged l).
Proof.
  destruct (is_solved_loop_total _ (logged_wf l)) as [b Hb].
  assert (is_solved (logged l) = Some (b, logged l)) as Hs.
  { unfold is_solved. now rewrite Hb. }
  unfold solve. erewrite bind_run by exact Hs.
  destruct b; [left; now split|right].
  erewrite bind_run by reflexivity.
  destruct l as [|x l]; [discriminate Hb|].
  now rewrite bool_decide_eq_true_2 by discriminate.
Qed.

(** C6. On every cube whose grid is what replaying its own log on a new
    cube gives: the log reversed, each entry replaced by its
    [_get_inverse_move], runs without error and ends in the grid of a new
    cube, on which [is_solved] answers true; and so does the solver's
    [solve_and_apply], which feeds the same moves, joined and split again,
    to [execute_algorithm]. *)
Theorem C6_reversed_inverted_log_solves (cu : Cube) :
  replayed cu →
  (∃ cu', execute_moves (_get_inverse_move <$> reverse (move_history cu)) cu
          = Some (tt, cu')
          ∧ faces cu' = _create_solved_cube
          ∧ is_solved cu' = Some (true, cu'))
  ∧ (∃ r cu', solve_and_apply cu = Some (r, cu')
              ∧ is_solved cu' = Some (true, cu')).
Proof.
  intros H. apply replayed_logged in H as [l ->]. unfold logged. simpl. split.
  - rewrite inverse_moves_run. eexists. split; [reflexivity|].
    split; [reflexivity | apply is_solved_new].
  - unfold solve_and_apply.
    destruct (solve_logged l) as [[E Hs]|E]; unfold logged in *;
      erewrite bind_run by exact E.
    + now eexists _, _.
    + cbv beta iota. erewrite bind_run.
      2: { unfold execute_algorithm. cbn [move_history].
           rewrite inverse_moves_logged, split_join_notations.
           rewrite <- inverse_moves_logged. apply inverse_moves_run. }
      eexists _, _. split; [reflexivity|]. apply is_solved_new.
Qed.

Lemma C6_witness :
  let cu := logged [(Right, false); (Up, false); (Right, true); (Up, true)] in
  (∃ cu', execute_moves (_get_inverse_move <$> reverse (move_history cu)) cu
          = Some (tt, cu')
          ∧ faces cu' = _create_solved_cube
          ∧ is_solved cu' = Some (true, cu'))
  ∧ (∃ r cu', solve_and_apply cu = Some (r, cu')
              ∧ is_solved cu' = Some (true, cu')).
Proof.
  intros cu. apply (C6_reversed_inverted_log_solves cu).
  vm_compute. reflexivity.
Defined.

(** ** Scramble *)

Lemma choice_run {X} (k : nat) (l : list X) cu :
  l ≠ [] → ∃ x, choice k l cu = Some (x, cu) ∧ x ∈ l.
Proof.
  intros N. unfold choice, index.
  destruct (l !! (k mod length l)) as [x|] eqn:E.
  - exists x. split; [reflexivity|]. now apply list_elem_of_lookup_2 in E.
  - apply lookup_ge_None in E. destruct l; [congruence|].
    pose proof (Nat.mod_upper_bound k (length (x :: l))) as B.
    simpl in *. lia.
Qed.

Lemma available_moves_nonempty (last_move : option string) :
  filter (λ m, Some m ≠ last_move) ["U"; "D"; "F"; "B"; "L"; "R"] ≠ [].
Proof.
  destruct (decide (Some "U" = last_move)) as [<-|N].
  - vm_compute. discriminate.
  - rewrite filter_cons_True by exact N. discriminate.
Qed.

(** A scramble of any length, whatever the draws, runs without error and
    ends in a cube the operations reach: the history inverter applies. *)
Lemma scramble_reachable draws cu :
  reachable cu → ∃ s cu', scramble draws cu = Some (s, cu') ∧ reachable cu'.
Proof.
  intros Hr. unfold scramble.
  enough (∀ last_move acc, ∃ l cu',
            scramble_loop draws last_move acc cu = Some (l, cu') ∧ reachable cu')
    as G.
  { destruct (G None []) as (l & cu' & E & Hr').
    erewrite bind_run by exact E. now eexists _, _. }
  revert cu Hr. induction draws as [|[k1 k2] draws IH]; intros cu Hr last_move acc.
  - now exists acc, cu.
  - cbn [scramble_loop].
    destruct (choice_run k1 _ cu (available_moves_nonempty last_move)) as (mv & E1 & _).
    erewrite bind_run by exact E1.
    destruct (choice_run k2 [EmptyString; "'"; "2"] cu) as (md & E2 & _);
      [discriminate|].
    erewrite bind_run by exact E2.
    destruct (execute_move_wf (mv ++ md) cu (reachable_wf cu Hr)) as (cu1 & E3 & _).
    erewrite bind_run by exact E3.
    apply IH. now apply (reach_move (mv ++ md) cu).
Qed.

(** The scenario with fifteen draws: scramble a new cube, let the solver
    invert the log and apply it, and the cube is solved. *)
Example scramble_15_then_solve :
  fst <$> (scramble [(0, 0); (3, 2); (1, 1); (4, 0); (2, 2); (0, 1); (5, 0);
                     (7, 4); (3, 3); (2, 1); (9, 2); (1, 0); (4, 5); (0, 2);
                     (6, 1)] ;;
           solve_and_apply ;; is_solved) new_cube
  = Some true.
Proof. vm_compute. reflexivity. Qed.

(** ** The rotation of a face grid, cell by cell *)

Lemma rotate_acts_as_rot_dest f : acts_as f rot_dest.
Proof.
  intros [fs h] H. unfold wf_cube in H. simpl in H. explode_faces H.
  destruct f; (eexists; split; [reflexivity|]);
    intros [|[|[|r]]] [|[|[|c]]] Hr Hc; try lia; reflexivity.
Qed.

Lemma labelled_wf : wf_cube labelled_cube.
Proof. vm_compute. repeat constructor. Qed.

(** C9, as stated, on a face with nine different labels: one rotation
    moves corners to corners and edges to edges, and four rotations put
    every label back, so the eight outer cells do not form one cycle of
    length eight. *)
Lemma C9_rotation_has_order_four :
  faces_after (_rotate_face_clockwise U) labelled_cube
  = Some ([ ["g"; "d"; "a"]; ["h"; "e"; "b"]; ["i"; "f"; "c"] ]
          :: drop 1 _create_solved_cube)
  ∧ faces_after (for_range 4 (λ _, _rotate_face_clockwise U)) labelled_cube
    = Some (faces labelled_cube).
Proof. split; reflexivity. Qed.

(** No map on cells that describes the rotation of the Up grid fixes the
    centre and has the eight outer cells as a single cycle. *)
Lemma rotation_is_not_a_single_cycle :
  ¬ ∃ σ, acts_as Up σ ∧ σ (1, 1) = (1, 1) ∧ single_cycle σ non_center.
Proof.
  intros (σ & Hσ & _ & Hc).
  destruct (Hσ labelled_cube labelled_wf) as (cu' & E & Hcell).
  injection E as <-.
  assert (∀ p, p ∈ corner_cells → σ p ∈ corner_cells) as Hcorner.
  { intros p Hp. vm_compute in Hp.
    repeat (apply elem_of_cons in Hp as [-> | Hp];
            [ match goal with
              | |- σ (?r, ?c) ∈ _ =>
                  pose proof (Hcell r c ltac:(lia) ltac:(lia)) as Hrc
              end;
              destruct (σ _) as [[|[|[|r']]] [|[|[|c']]]];
              try discriminate Hrc; vm_compute; repeat constructor | ]).
    now apply elem_of_nil in Hp. }
  assert (∀ k, Nat.iter k σ (0, 0) ∈ corner_cells) as Hiter.
  { induction k as [|k IH]; [vm_compute; repeat constructor|].
    simpl. apply Hcorner, IH. }
  destruct (Hc (0, 0) (0, 1)) as [k Hk]; [vm_compute; repeat constructor..|].
  specialize (Hiter k). rewrite Hk in Hiter. vm_compute in Hiter.
  repeat (apply elem_of_cons in Hiter as [[=] | Hiter]).
  now apply elem_of_nil in Hiter.
Qed.

(** C9, amended. For every face, the own-grid part of a clockwise quarter
    turn runs without error on every well-formed cube and moves the
    content of cell (r, c) to cell (c, 2 - r): the centre stays, the four
    corner cells go round in one cycle of length four and the four edge
    cells in another. *)
Theorem C9_rotation_is_two_four_cycles (f : face) :
  acts_as f rot_dest
  ∧ rot_dest (1, 1) = (1, 1)
  ∧ four_cycle rot_dest corner_cells
  ∧ four_cycle rot_dest edge_cells.
Proof.
  split; [apply rotate_acts_as_rot_dest|].
  split; [reflexivity|].
  split; (split; [|split; reflexivity]);
    repeat (apply NoDup_cons; split;
            [intros Hin; repeat (apply elem_of_cons in Hin as [[=] | Hin]);
             now apply elem_of_nil in Hin|]);
    apply NoDup_nil_2.
Qed.

Lemma C9_witness :
  (∃ cu', _rotate_face_clockwise (face_index Up) labelled_cube = Some (tt, cu')
          ∧ ∀ r c, r < 3 → c < 3 →
              cell (faces cu') (Up, (rot_dest (r, c)).1, (rot_dest (r, c)).2)
              = cell (faces labelled_cube) (Up, r, c))
  ∧ rot_dest (1, 1) = (1, 1)
  ∧ four_cycle rot_dest corner_cells
  ∧ four_cycle rot_dest edge_cells.
Proof.
  destruct (C9_rotation_is_two_four_cycles Up) as (Ha & Hc & H4).
  split; [|split; [exact Hc | exact H4]].
  apply (Ha labelled_cube). vm_compute. repeat constructor.
Defined.

(** ** The face methods against the rigid quarter turn *)

(** Front, Back, Left and Right: the method is the rigid clockwise quarter
    turn of its layer, on every well-formed grid. *)
Lemma side_moves_are_quarter_turns f fs :
  f ∈ [Front; Back; Left; Right] →
  wf_faces fs →
  quarter_turn f fs = Some (turn f false fs).
Proof.
  intros Hin H. explode_faces H.
  repeat (apply elem_of_cons in Hin as [-> | Hin]; [vm_compute; reflexivity|]).
  now apply elem_of_nil in Hin.
Qed.

(** Up and Down: the method turns its own grid as the rigid clockwise
    quarter turn does, but leaves every other face as three rigid quarter
    turns do, that is, it carries the four side rows the other way
    round. *)
Lemma up_down_moves_carry_rows_backwards f fs :
  f ∈ [Up; Down] →
  wf_faces fs →
  ∃ q1 q3 : list (list (list string)),
    quarter_turn f fs = Some q1
    ∧ (q ← quarter_turn f fs; q' ← quarter_turn f q; quarter_turn f q') = Some q3
    ∧ turn f false fs !! face_index f = q1 !! face_index f
    ∧ ∀ i, i ≠ face_index f → turn f false fs !! i = q3 !! i.
Proof.
  intros Hin H. explode_faces H.
  repeat (apply elem_of_cons in Hin as [-> | Hin];
          [ eexists _, _; split; [vm_compute; reflexivity|];
            split; [vm_compute; reflexivity|];
            split; [reflexivity|];
            intros [|[|[|[|[|[|i]]]]]] N; try reflexivity; now elim N | ]).
  now apply elem_of_nil in Hin.
Qed.

(** C1 at a new cube, where the code and the claim part.  After [move_U]
    the top row of Front shows Left's colour O and the top row of Right
    shows Front's colour G; a rigid clockwise quarter turn of the Up layer
    brings Right's colour R to Front and Back's colour B to Right.
    [move_D] differs from the rigid turn of the Down layer the same way on
    the bottom rows. *)
Theorem C1_move_U_and_move_D_carry_side_rows_backwards :
  faces_after (move_U false) new_cube
  = Some [ [["W"; "W"; "W"]; ["W"; "W"; "W"]; ["W"; "W"; "W"]];
           [["Y"; "Y"; "Y"]; ["Y"; "Y"; "Y"]; ["Y"; "Y"; "Y"]];
           [["O"; "O"; "O"]; ["G"; "G"; "G"]; ["G"; "G"; "G"]];
           [["R"; "R"; "R"]; ["B"; "B"; "B"]; ["B"; "B"; "B"]];
           [["B"; "B"; "B"]; ["O"; "O"; "O"]; ["O"; "O"; "O"]];
           [["G"; "G"; "G"]; ["R"; "R"; "R"]; ["R"; "R"; "R"]] ]
  ∧ quarter_turn Up (faces new_cube)
    = Some [ [["W"; "W"; "W"]; ["W"; "W"; "W"]; ["W"; "W"; "W"]];
             [["Y"; "Y"; "Y"]; ["Y"; "Y"; "Y"]; ["Y"; "Y"; "Y"]];
             [["R"; "R"; "R"]; ["G"; "G"; "G"]; ["G"; "G"; "G"]];
             [["O"; "O"; "O"]; ["B"; "B"; "B"]; ["B"; "B"; "B"]];
             [["G"; "G"; "G"]; ["O"; "O"; "O"]; ["O"; "O"; "O"]];
             [["B"; "B"; "B"]; ["R"; "R"; "R"]; ["R"; "R"; "R"]] ]
  ∧ faces_after (move_D false) new_cube
    = Some [ [["W"; "W"; "W"]; ["W"; "W"; "W"]; ["W"; "W"; "W"]];
             [["Y"; "Y"; "Y"]; ["Y"; "Y"; "Y"]; ["Y"; "Y"; "Y"]];
             [["G"; "G"; "G"]; ["G"; "G"; "G"]; ["R"; "R"; "R"]];
             [["B"; "B"; "B"]; ["B"; "B"; "B"]; ["O"; "O"; "O"]];
             [["O"; "O"; "O"]; ["O"; "O"; "O"]; ["G"; "G"; "G"]];
             [["R"; "R"; "R"]; ["R"; "R"; "R"]; ["B"; "B"; "B"]] ]
  ∧ quarter_turn Down (faces new_cube)
    = Some [ [["W"; "W"; "W"]; ["W"; "W"; "W"]; ["W"; "W"; "W"]];
             [["Y"; "Y"; "Y"]; ["Y"; "Y"; "Y"]; ["Y"; "Y"; "Y"]];
             [["G"; "G"; "G"]; ["G"; "G"; "G"]; ["O"; "O"; "O"]];
             [["B"; "B"; "B"]; ["B"; "B"; "B"]; ["R"; "R"; "R"]];
             [["O"; "O"; "O"]; ["O"; "O"; "O"]; ["B"; "B"; "B"]];
             [["R"; "R"; "R"]; ["R"; "R"; "R"]; ["G"; "G"; "G"]] ].
Proof. repeat split; vm_compute; reflexivity. Qed.

(** Four rigid quarter turns of a layer put every cell back. *)
Lemma quarter_turn_four_times f fs :
  wf_faces fs →
  (q1 ← quarter_turn f fs; q2 ← quarter_turn f q1;
   q3 ← quarter_turn f q2; quarter_turn f q3) = Some fs.
Proof.
  intros H. explode_faces H.
  destruct f; vm_compute; reflexivity.
Qed.

(** * Further properties of the code *)

(** ** Half turns, three-quarter turns, opposite faces, centres *)

Lemma turn_true_twice f fs :
  wf_faces fs →
  turn f true (turn f true fs) = turn f false (turn f false fs).
Proof.
  intros H. explode_faces H.
  destruct f; vm_compute; reflexivity.
Qed.

Lemma turn_true_is_three f fs :
  wf_faces fs →
  turn f true fs = turn f false (turn f false (turn f false fs)).
Proof.
  intros H. explode_faces H.
  destruct f; vm_compute; reflexivity.
Qed.

Lemma turn_opposite_commute f p q fs :
  wf_faces fs →
  turn (opposite f) q (turn f p fs) = turn f p (turn (opposite f) q fs).
Proof.
  intros H. explode_faces H.
  destruct f, p, q; vm_compute; reflexivity.
Qed.

Lemma turn_centre f p g fs :
  wf_faces fs → cell (turn f p fs) (g, 1, 1) = cell fs (g, 1, 1).
Proof.
  intros H. explode_faces H.
  destruct f, p, g; reflexivity.
Qed.

Lemma turns_centre l g fs :
  wf_faces fs → cell (turns l fs) (g, 1, 1) = cell fs (g, 1, 1).
Proof.
  revert fs. induction l as [|[f p] l IH]; intros fs H; [reflexivity|].
  change (turns ((f, p) :: l) fs) with (turns l (turn f p fs)).
  rewrite IH by (apply turn_wf, H). apply turn_centre, H.
Qed.

Lemma turns_of_prime_double f :
  turns_of (letter f ++ "'2") = [(f, true); (f, true)].
Proof. destruct f; reflexivity. Qed.

(** X1. A token X2 leaves the grid that two clockwise calls of the face
    method leave, the token X'2 leaves the same grid, and a second X2
    puts the grid back. *)
Theorem half_turn_is_two_quarter_turns (f : face) (cu : Cube) :
  wf_cube cu →
  ∃ fs', faces_after (execute_move (letter f ++ "2")) cu = Some fs'
         ∧ faces_after (move_of f false ;; move_of f false) cu = Some fs'
         ∧ faces_after (execute_move (letter f ++ "'2")) cu = Some fs'
         ∧ faces_after (execute_move (letter f ++ "2") ;;
                        execute_move (letter f ++ "2")) cu = Some (faces cu).
Proof.
  destruct cu as [fs h]. unfold wf_cube, faces_after. simpl. intros H.
  exists (turn f false (turn f false fs)).
  pose proof (turn_wf f false _ H) as H1.
  pose proof (turn_wf f false _ H1) as H2.
  repeat split.
  - now rewrite execute_move_run, turns_of_double by exact H.
  - erewrite bind_run by (apply move_of_run, H).
    now rewrite move_of_run by exact H1.
  - rewrite execute_move_run, turns_of_prime_double by exact H. simpl.
    now rewrite turn_true_twice by exact H.
  - erewrite bind_run by (apply execute_move_run, H).
    rewrite turns_of_double. simpl.
    rewrite execute_move_run, turns_of_double by exact H2. simpl.
    now rewrite (turn_four_times f fs H).
Qed.

Lemma half_turn_witness :
  ∃ fs', faces_after (execute_move "F2") new_cube = Some fs'
         ∧ faces_after (move_of Front false ;; move_of Front false) new_cube = Some fs'
         ∧ faces_after (execute_move "F'2") new_cube = Some fs'
         ∧ faces_after (execute_move "F2" ;; execute_move "F2") new_cube
           = Some (faces new_cube).
Proof. apply (half_turn_is_two_quarter_turns Front new_cube). apply wf_solved. Defined.

(** X2. The primed call of a face method leaves the grid that three
    clockwise calls leave. *)
Theorem prime_is_three_quarter_turns (f : face) (cu : Cube) :
  wf_cube cu →
  ∃ fs', faces_after (move_of f true) cu = Some fs'
         ∧ faces_after (move_of f false ;; move_of f false ;; move_of f false) cu
           = Some fs'.
Proof.
  destruct cu as [fs h]. unfold wf_cube, faces_after. simpl. intros H.
  exists (turn f true fs).
  pose proof (turn_wf f false _ H) as H1.
  pose proof (turn_wf f false _ H1) as H2.
  split.
  - now rewrite move_of_run by exact H.
  - erewrite bind_run by (apply move_of_run, H).
    erewrite bind_run by (apply move_of_run, H1).
    rewrite move_of_run by exact H2. simpl.
    now rewrite (turn_true_is_three f fs H).
Qed.

Lemma prime_is_three_quarter_turns_witness :
  ∃ fs', faces_after (move_of Back true) new_cube = Some fs'
         ∧ faces_after (move_of Back false ;; move_of Back false ;; move_of Back false)
                       new_cube = Some fs'.
Proof. apply (prime_is_three_quarter_turns Back new_cube). apply wf_solved. Defined.

(** X3. Turns of opposite faces commute: in either order, clockwise or
    primed, they leave the same grid. *)
Theorem opposite_faces_commute (f : face) (p q : bool) (cu : Cube) :
  wf_cube cu →
  ∃ fs', faces_after (move_of f p ;; move_of (opposite f) q) cu = Some fs'
         ∧ faces_after (move_of (opposite f) q ;; move_of f p) cu = Some fs'.
Proof.
  destruct cu as [fs h]. unfold wf_cube, faces_after. simpl. intros H.
  exists (turn (opposite f) q (turn f p fs)). split.
  - erewrite bind_run by (apply move_of_run, H).
    now rewrite move_of_run by (apply turn_wf, H).
  - erewrite bind_run by (apply move_of_run, H).
    rewrite move_of_run by (apply turn_wf, H). simpl.
    now rewrite turn_opposite_commute by exact H.
Qed.

Lemma opposite_faces_commute_witness :
  ∃ fs', faces_after (move_of Left false ;; move_of Right true) new_cube = Some fs'
         ∧ faces_after (move_of Right true ;; move_of Left false) new_cube = Some fs'.
Proof. apply (opposite_faces_commute Left false true new_cube). apply wf_solved. Defined.

(** X4. No sequence of tokens moves a centre: after any list of tokens on
    a well-formed cube, the middle cell of each face holds what it held
    before. *)
Theorem centres_never_move (ts : list string) (g : face) (cu : Cube) :
  wf_cube cu →
  ∃ cu', execute_moves ts cu = Some (tt, cu')
         ∧ cell (faces cu') (g, 1, 1) = cell (faces cu) (g, 1, 1).
Proof.
  destruct cu as [fs h]. unfold wf_cube. simpl. intros H.
  rewrite execute_moves_run by exact H.
  eexists. split; [reflexivity|]. simpl. apply turns_centre, H.
Qed.

Lemma centres_never_move_witness :
  ∃ cu', execute_moves ["R"; "U2"; "F'"; "x"; "D"] new_cube = Some (tt, cu')
         ∧ cell (faces cu') (Front, 1, 1) = cell (faces new_cube) (Front, 1, 1).
Proof. apply (centres_never_move _ Front new_cube). apply wf_solved. Defined.

(** ** The solved test *)

Lemma nine_cells_uniform (a b c d e f g h i : string) :
  forallb (forallb (λ cell, bool_decide (cell = a)))
          [[a; b; c]; [d; e; f]; [g; h; i]] = true
  ↔ uniform [[a; b; c]; [d; e; f]; [g; h; i]].
Proof.
  simpl. rewrite !andb_true_iff, !bool_decide_eq_true. split.
  - intros ((_ & -> & -> & _) & (-> & -> & -> & _) & (-> & -> & -> & _) & _).
    now exists a.
  - intros [x [= -> -> -> -> -> -> -> ->]]. tauto.
Qed.

Lemma is_solved_loop_uniform fs :
  Forall (λ face, length face = 3 ∧
                  Forall (λ row : list string, length row = 3) face) fs →
  ∃ b, is_solved_loop fs = Some b ∧ (b = true ↔ Forall uniform fs).
Proof.
  induction 1 as [|fc fs Hfc _ (b & E & Hb)].
  - exists true. split; [reflexivity|]. split; [constructor | reflexivity].
  - explode_shape. cbn [is_solved_loop lookup list_lookup mbind option_bind].
    match goal with
    | |- context [forallb ?p ?l] => destruct (forallb p l) eqn:Ec
    end.
    + apply nine_cells_uniform in Ec.
      exists b. split; [exact E|]. rewrite Forall_cons. tauto.
    + exists false. split; [reflexivity|]. split; [discriminate|].
      intros Hall. apply Forall_cons in Hall as [Hu _].
      apply nine_cells_uniform in Hu. congruence.
Qed.

(** X5. On a well-formed cube [is_solved] never raises and changes
    nothing, and it answers true exactly when each of the six faces is
    nine cells of one colour, whichever colour that is. *)
Theorem is_solved_iff_every_face_uniform (cu : Cube) :
  wf_cube cu →
  ∃ b, is_solved cu = Some (b, cu) ∧ (b = true ↔ Forall uniform (faces cu)).
Proof.
  intros [_ H]. destruct (is_solved_loop_uniform _ H) as (b & E & Hb).
  exists b. split; [|exact Hb]. unfold is_solved. now rewrite E.
Qed.

Lemma is_solved_iff_every_face_uniform_witness :
  ∃ b, is_solved (logged [(Right, false)]) = Some (b, logged [(Right, false)])
       ∧ (b = true ↔ Forall uniform (faces (logged [(Right, false)]))).
Proof.
  apply (is_solved_iff_every_face_uniform (logged [(Right, false)])).
  vm_compute. repeat constructor.
Defined.

(** ** The grid rotations on any cube *)

Lemma read_face_inv i cu fc cu1 :
  read_face i cu = Some (fc, cu1) → cu1 = cu ∧ faces cu !! i = Some fc.
Proof.
  unfold read_face. destruct (faces cu !! i); [|discriminate].
  now intros [= -> ->].
Qed.

Lemma index_inv {X} (l : list X) i cu x cu1 :
  index l i cu = Some (x, cu1) → cu1 = cu ∧ l !! i = Some x.
Proof.
  unfold index. destruct (l !! i); [|discriminate].
  now intros [= -> ->].
Qed.

Lemma write_face_inv i fc cu cu1 :
  write_face i fc cu = Some (tt, cu1) →
  i < length (faces cu) ∧ cu1 = mkCube (<[i:=fc]> (faces cu)) (move_history cu).
Proof.
  unfold write_face, store. destruct (decide _); [|discriminate].
  now intros [= <-].
Qed.

(** X6. Whatever the cube, a successful [_rotate_face_clockwise] leaves
    the log, the number of faces and every other face as they were, and
    the face it wrote has three rows of three cells. *)
Theorem rotate_touches_one_face (i : nat) (cu cu' : Cube) :
  _rotate_face_clockwise i cu = Some (tt, cu') →
  move_history cu' = move_history cu
  ∧ length (faces cu') = length (faces cu)
  ∧ (∀ j, j ≠ i → faces cu' !! j = faces cu !! j)
  ∧ ∃ a b c d e f g h k,
      faces cu' !! i = Some [[a; b; c]; [d; e; f]; [g; h; k]].
Proof.
  unfold _rotate_face_clockwise. intros H.
  apply bind_inv in H as (fc & cu1 & E & H).
  apply read_face_inv in E as [-> _].
  do 12 (apply bind_inv in H as (? & ? & E & H);
         apply index_inv in E as [-> _]).
  apply write_face_inv in H as [Hlt ->]. simpl.
  repeat split.
  - apply length_insert.
  - intros j N. now apply list_lookup_insert_ne.
  - do 9 eexists. now apply list_lookup_insert_eq.
Qed.

(** A cube of three faces, the last with a row too many and a row too
    long: the rotation reads the first three rows and columns only. *)
Lemma rotate_touches_one_face_witness :
  let cu := mkCube [ []; [["p"]];
                     [["a"; "b"; "c"; "x"]; ["d"; "e"; "f"]; ["g"; "h"; "i"]; ["y"]] ]
                   ["U2"] in
  let cu' := mkCube [ []; [["p"]];
                      [["g"; "d"; "a"]; ["h"; "e"; "b"]; ["i"; "f"; "c"]] ]
                    ["U2"] in
  move_history cu' = move_history cu
  ∧ length (faces cu') = length (faces cu)
  ∧ (∀ j, j ≠ 2 → faces cu' !! j = faces cu !! j)
  ∧ ∃ a b c d e f g h k,
      faces cu' !! 2 = Some [[a; b; c]; [d; e; f]; [g; h; k]].
Proof.
  intros cu cu'. apply (rotate_touches_one_face 2 cu cu'). reflexivity.
Defined.

Lemma rotate_back_and_forth i fs h :
  wf_faces fs → i < 6 →
  (_rotate_face_clockwise i ;; _rotate_face_counter_clockwise i) (mkCube fs h)
  = Some (tt, mkCube fs h)
  ∧ (_rotate_face_counter_clockwise i ;; _rotate_face_clockwise i) (mkCube fs h)
    = Some (tt, mkCube fs h).
Proof.
  intros H Hi. explode_faces H.
  destruct i as [|[|[|[|[|[|i]]]]]]; try lia; split; reflexivity.
Qed.

(** X7. On a well-formed cube and for a face index below six, the two
    grid rotations undo each other in either order, leaving the cube
    exactly as it was; for any other index both raise, and nothing is
    rotated. *)
Theorem grid_rotations_are_inverse (i : nat) (cu : Cube) :
  wf_cube cu →
  (i < 6 →
   (_rotate_face_clockwise i ;; _rotate_face_counter_clockwise i) cu = Some (tt, cu)
   ∧ (_rotate_face_counter_clockwise i ;; _rotate_face_clockwise i) cu = Some (tt, cu))
  ∧ ((6 ≤ i)%nat →
     _rotate_face_clockwise i cu = None
     ∧ _rotate_face_counter_clockwise i cu = None).
Proof.
  destruct cu as [fs h]. unfold wf_cube. simpl. intros H. split.
  - intros Hi. now apply rotate_back_and_forth.
  - intros Hi. destruct H as [Hlen _].
    unfold _rotate_face_clockwise, _rotate_face_counter_clockwise, bind, read_face.
    simpl. rewrite (proj2 (lookup_ge_None fs i)) by lia. now split.
Qed.

Lemma grid_rotations_are_inverse_witness :
  ((_rotate_face_clockwise 4 ;; _rotate_face_counter_clockwise 4) labelled_cube
   = Some (tt, labelled_cube)
   ∧ (_rotate_face_counter_clockwise 4 ;; _rotate_face_clockwise 4) labelled_cube
     = Some (tt, labelled_cube))
  ∧ (_rotate_face_clockwise 6 new_cube = None
     ∧ _rotate_face_counter_clockwise 6 new_cube = None).
Proof.
  split.
  - apply (grid_rotations_are_inverse 4 labelled_cube); [|lia].
    vm_compute. repeat constructor.
  - apply (grid_rotations_are_inverse 6 new_cube); [|lia]. apply wf_solved.
Defined.

(** ** White space and suffixes in the dispatcher *)

Lemma blank_cons ch s : blank (String ch s) ↔ is_space ch = true ∧ blank s.
Proof.
  unfold blank. simpl. split.
  - intros H. inversion H; subst. now split.
  - intros [H1 H2]. now constructor.
Qed.

Lemma lstrip_blank_app w s : blank w → lstrip (w ++ s) = lstrip s.
Proof.
  induction w as [|ch w IH]; [reflexivity|].
  intros [Hch Hw]%blank_cons. simpl. rewrite Hch. apply IH, Hw.
Qed.

Lemma lstrip_blank w : blank w → lstrip w = EmptyString.
Proof.
  induction w as [|ch w IH]; [reflexivity|].
  intros [Hch Hw]%blank_cons. simpl. rewrite Hch. apply IH, Hw.
Qed.

Lemma rstrip_blank w : blank w → rstrip w = EmptyString.
Proof.
  induction w as [|ch w IH]; [reflexivity|].
  intros [Hch Hw]%blank_cons. simpl. now rewrite IH, Hch.
Qed.

Lemma rstrip_app_blank s w : blank w → rstrip (s ++ w) = rstrip s.
Proof.
  intros Hw. induction s as [|ch s IH]; simpl.
  - now apply rstrip_blank.
  - now rewrite IH.
Qed.

Lemma lstrip_app_blank t w :
  blank w →
  lstrip (t ++ w) = (lstrip t ++ w)%string
  ∨ (lstrip t = EmptyString ∧ lstrip (t ++ w) = EmptyString).
Proof.
  intros Hw. induction t as [|ch t IH]; simpl.
  - right. split; [reflexivity|]. now apply lstrip_blank.
  - destruct (is_space ch); [exact IH | now left].
Qed.

Lemma strip_surrounded w1 t w2 :
  blank w1 → blank w2 → strip (w1 ++ t ++ w2) = strip t.
Proof.
  intros H1 H2. unfold strip. rewrite lstrip_blank_app by exact H1.
  destruct (lstrip_app_blank t w2 H2) as [-> | [E ->]].
  - now apply rstrip_app_blank.
  - now rewrite E.
Qed.

Lemma execute_move_strip t1 t2 :
  strip t1 = strip t2 → execute_move t1 = execute_move t2.
Proof. unfold execute_move. now intros ->. Qed.

(** X8. White space around a token is ignored: the token with blanks
    before and after it does to any cube what the bare token does, and a
    token of blanks only, or the empty token, does nothing. *)
Theorem white_space_around_a_token_is_ignored (w1 t w2 : string) (cu : Cube) :
  blank w1 → blank w2 →
  execute_move (w1 ++ t ++ w2) cu = execute_move t cu
  ∧ execute_move (w1 ++ w2) cu = Some (tt, cu).
Proof.
  intros H1 H2. split.
  - now rewrite (execute_move_strip _ t) by (now apply strip_surrounded).
  - rewrite (execute_move_strip _ EmptyString); [reflexivity|].
    pose proof (strip_surrounded w1 EmptyString w2 H1 H2) as E.
    simpl in E. exact E.
Qed.

Lemma white_space_around_a_token_is_ignored_witness :
  let tab := String (ascii_of_nat 9) EmptyString in
  let newline := String (ascii_of_nat 10) EmptyString in
  execute_move (("  " ++ tab) ++ "R'" ++ newline) new_cube = execute_move "R'" new_cube
  ∧ execute_move (("  " ++ tab) ++ newline) new_cube = Some (tt, new_cube).
Proof.
  intros tab newline.
  apply (white_space_around_a_token_is_ignored ("  " ++ tab) "R'" newline new_cube);
    vm_compute; repeat constructor.
Defined.

(** X9. The dispatcher takes off a final 2 before it takes off a final
    quote.  So, for every face letter X and on every cube, X'2 runs the
    primed method twice, while X2', X'' and X22 are looked up as X2, X'
    and X2, found under no key, and do nothing. *)
Theorem suffixes_are_read_two_then_quote (f : face) (cu : Cube) :
  execute_move (letter f ++ "'2") cu = (move_of f true ;; move_of f true) cu
  ∧ execute_move (letter f ++ "2'") cu = Some (tt, cu)
  ∧ execute_move (letter f ++ "''") cu = Some (tt, cu)
  ∧ execute_move (letter f ++ "22") cu = Some (tt, cu).
Proof. destruct f; repeat split; reflexivity. Qed.

(** ** Algorithms: composition and the log *)

Lemma split_from_blank_start w b :
  blank w → split_from EmptyString (w ++ b) = split b.
Proof.
  induction w as [|ch w IH]; [reflexivity|].
  intros [Hch Hw]%blank_cons. simpl. rewrite Hch. apply IH, Hw.
Qed.

Lemma split_blank w : blank w → split_from EmptyString w = [].
Proof.
  induction w as [|ch w IH]; [reflexivity|].
  intros [Hch Hw]%blank_cons. simpl. rewrite Hch. apply IH, Hw.
Qed.

Lemma split_from_separator cur a w b :
  blank w → w ≠ EmptyString →
  split_from cur (a ++ w ++ b) = split_from cur a ++ split b.
Proof.
  intros Hw Hne. revert cur. induction a as [|ch a IH]; intros cur.
  - destruct w as [|c w]; [congruence|].
    apply blank_cons in Hw as [Hc Hw]. simpl. rewrite Hc.
    rewrite split_from_blank_start by exact Hw.
    now destruct (bool_decide (cur = EmptyString)).
  - simpl. destruct (is_space ch).
    + destruct (bool_decide (cur = EmptyString)); simpl; now rewrite IH.
    + apply IH.
Qed.

Lemma execute_moves_app l1 l2 cu :
  execute_moves (l1 ++ l2) cu = (execute_moves l1 ;; execute_moves l2) cu.
Proof.
  revert cu. induction l1 as [|t l1 IH]; intros cu; [reflexivity|].
  simpl. unfold bind.
  destruct (execute_move t cu) as [[[] cu1]|]; [|reflexivity].
  rewrite IH. reflexivity.
Qed.

(** X10. Algorithms compose: on every cube, running two algorithm
    strings joined by white space is running the first and then the
    second, errors included; a blank algorithm does nothing. *)
Theorem algorithms_compose (a w b : string) (cu : Cube) :
  blank w → w ≠ EmptyString →
  execute_algorithm (a ++ w ++ b) cu
  = (execute_algorithm a ;; execute_algorithm b) cu
  ∧ execute_algorithm w cu = Some (tt, cu).
Proof.
  intros Hw Hne. unfold execute_algorithm, split. split.
  - rewrite split_from_separator by assumption. apply execute_moves_app.
  - now rewrite split_blank by exact Hw.
Qed.

Lemma algorithms_compose_witness :
  execute_algorithm ("R U" ++ "  " ++ "R' U'") new_cube
  = (execute_algorithm "R U" ;; execute_algorithm "R' U'") new_cube
  ∧ execute_algorithm "  " new_cube = Some (tt, new_cube).
Proof.
  apply (algorithms_compose "R U" "  " "R' U'" new_cube).
  - vm_compute. repeat constructor.
  - discriminate.
Defined.

Lemma notation_quarter f p : notation f p ∈ quarter_notations.
Proof. destruct f, p; vm_compute; repeat constructor. Qed.

Lemma turns_of_at_most_two t : (length (turns_of t) ≤ 2)%nat.
Proof.
  unfold turns_of. destruct (bool_decide _); [simpl; lia|].
  destruct (face_of_letter _); [|simpl; lia].
  destruct (is_double t); simpl; lia.
Qed.

Lemma bind_turns_of_length ts : (length (ts ≫= turns_of) ≤ 2 * length ts)%nat.
Proof.
  induction ts as [|t ts IH]; [simpl; lia|].
  rewrite bind_cons, length_app. pose proof (turns_of_at_most_two t).
  simpl in *. lia.
Qed.

(** X11. On a well-formed cube no algorithm string raises: every string
    runs, keeps the cube well-formed and only appends to the log, each
    new entry one of the twelve quarter-turn notations and at most two
    entries for each token. *)
Theorem algorithm_only_appends_quarter_turns (s : string) (cu : Cube) :
  wf_cube cu →
  ∃ cu' l, execute_algorithm s cu = Some (tt, cu')
           ∧ wf_cube cu'
           ∧ move_history cu' = move_history cu ++ l
           ∧ Forall (λ e, e ∈ quarter_notations) l
           ∧ (length l ≤ 2 * length (split s))%nat.
Proof.
  destruct cu as [fs h]. unfold wf_cube, execute_algorithm. simpl. intros H.
  rewrite execute_moves_run by exact H.
  eexists _, _. split; [reflexivity|]. simpl.
  split; [apply turns_wf, H|]. split; [reflexivity|]. split.
  - apply Forall_fmap, Forall_forall. intros [f p] _. apply notation_quarter.
  - rewrite length_fmap. apply bind_turns_of_length.
Qed.

Lemma algorithm_only_appends_quarter_turns_witness :
  ∃ cu' l, execute_algorithm "R2 x U''  F'" new_cube = Some (tt, cu')
           ∧ wf_cube cu'
           ∧ move_history cu' = move_history new_cube ++ l
           ∧ Forall (λ e, e ∈ quarter_notations) l
           ∧ (length l ≤ 2 * length (split "R2 x U''  F'"))%nat.
Proof.
  apply (algorithm_only_appends_quarter_turns _ new_cube). apply wf_solved.
Defined.

(** X12. On every cube the operations reach from a new one, the grid is
    what replaying the log on a new cube gives and every entry of the log
    is one of the twelve quarter-turn notations; so two such cubes with
    the same log are the same cube. *)
Theorem log_of_a_reachable_cube_tells_its_grid (cu : Cube) :
  reachable cu →
  wf_cube cu
  ∧ execute_moves (move_history cu) new_cube = Some (tt, cu)
  ∧ Forall (λ e, e ∈ quarter_notations) (move_history cu)
  ∧ ∀ cu2, reachable cu2 → move_history cu2 = move_history cu → cu2 = cu.
Proof.
  intros Hr. pose proof (reachable_replayed cu Hr) as Hp.
  split; [apply reachable_wf, Hr|]. split; [exact Hp|]. split.
  - apply reachable_logged in Hr as [l ->]. simpl.
    apply Forall_fmap, Forall_forall. intros [f p] _. apply notation_quarter.
  - intros cu2 Hr2 E. apply reachable_replayed in Hr2.
    unfold replayed in *. rewrite E in Hr2. congruence.
Qed.

Lemma log_of_a_reachable_cube_tells_its_grid_witness :
  let cu := logged [(Up, false); (Up, false)] in
  wf_cube cu
  ∧ execute_moves (move_history cu) new_cube = Some (tt, cu)
  ∧ Forall (λ e, e ∈ quarter_notations) (move_history cu)
  ∧ ∀ cu2, reachable cu2 → move_history cu2 = move_history cu → cu2 = cu.
Proof.
  intros cu. apply (log_of_a_reachable_cube_tells_its_grid cu).
  apply (reach_move "U2" new_cube); [apply reach_new | reflexivity].
Defined.

(** ** The inverter, the solver and undo *)

Lemma inverse_token_in_grammar t :
  t ∈ well_formed_tokens →
  _get_inverse_move t ∈ well_formed_tokens
  ∧ _get_inverse_move (_get_inverse_move t) = t.
Proof.
  intros Hin. vm_compute in Hin.
  repeat (apply elem_of_cons in Hin as [-> | Hin];
          [split; [vm_compute; repeat constructor | reflexivity]|]).
  now apply elem_of_nil in Hin.
Qed.

Lemma inverse_token_grid t fs :
  t ∈ well_formed_tokens → wf_faces fs →
  turns (turns_of (_get_inverse_move t)) (turns (turns_of t) fs) = fs.
Proof.
  intros Hin H. apply well_formed_tokens_inv in Hin as [f [-> | [-> | ->]]].
  - replace (turns_of (_get_inverse_move _)) with [(f, true)] by (now destruct f).
    rewrite turns_of_letter. apply (turn_negb_turn f false fs H).
  - replace (turns_of (_get_inverse_move _)) with [(f, false)] by (now destruct f).
    rewrite turns_of_prime. apply (turn_negb_turn f true fs H).
  - replace (turns_of (_get_inverse_move _)) with [(f, false); (f, false)]
      by (now destruct f).
    rewrite turns_of_double. apply (turn_four_times f fs H).
Qed.

(** X13. On the eighteen tokens of the grammar [_get_inverse_move] stays
    within the grammar and is its own inverse, and on a well-formed cube a
    token followed by its inverse leaves the grid as it was. *)
Theorem inverse_move_takes_a_token_back (t : string) (cu : Cube) :
  t ∈ well_formed_tokens → wf_cube cu →
  _get_inverse_move t ∈ well_formed_tokens
  ∧ _get_inverse_move (_get_inverse_move t) = t
  ∧ faces_after (execute_move t ;; execute_move (_get_inverse_move t)) cu
    = Some (faces cu).
Proof.
  intros Hin H. destruct (inverse_token_in_grammar t Hin) as (H1 & H2).
  split; [exact H1|]. split; [exact H2|].
  destruct cu as [fs h]. unfold wf_cube, faces_after in *. simpl in *.
  erewrite bind_run by (apply execute_move_run, H).
  rewrite execute_move_run by (apply turns_wf, H). simpl.
  now rewrite inverse_token_grid.
Qed.

Lemma inverse_move_takes_a_token_back_witness :
  _get_inverse_move "B2" ∈ well_formed_tokens
  ∧ _get_inverse_move (_get_inverse_move "B2") = "B2"
  ∧ faces_after (execute_move "B2" ;; execute_move (_get_inverse_move "B2")) new_cube
    = Some (faces new_cube).
Proof.
  apply (inverse_move_takes_a_token_back "B2" new_cube).
  - vm_compute. repeat constructor.
  - apply wf_solved.
Defined.

(** X14. On a well-formed cube [solve], and [get_solution] with it,
    never raises and never changes the cube.  It reports a solved cube
    exactly when every face is uniform, even if the log is not empty; a
    cube that is not solved and has an empty log gets the no-history
    message; any other gets the inverses of its log entries, last entry
    first, joined by spaces. *)
Theorem solve_only_reads_the_cube (cu : Cube) :
  wf_cube cu →
  ∃ r, solve cu = Some (r, cu)
       ∧ get_solution cu = Some (r, cu)
       ∧ (r = AlreadySolved ↔ Forall uniform (faces cu))
       ∧ (r = NoHistory ↔ ¬ Forall uniform (faces cu) ∧ move_history cu = [])
       ∧ ∀ s, r = Solution s →
              s = join (_get_inverse_move <$> reverse (move_history cu)).
Proof.
  intros [_ H]. destruct (is_solved_loop_uniform _ H) as (b & E & Hb).
  assert (is_solved cu = Some (b, cu)) as Hs.
  { unfold is_solved. now rewrite E. }
  unfold get_solution, solve. erewrite bind_run by exact Hs.
  destruct b.
  - exists AlreadySolved. split; [reflexivity|]. split; [reflexivity|].
    split; [tauto|]. split; [|discriminate].
    split; [discriminate|]. intros [N _]. tauto.
  - erewrite bind_run by reflexivity.
    destruct (move_history cu) as [|e h] eqn:Eh.
    + exists NoHistory. split; [reflexivity|]. split; [reflexivity|].
      split; [|split; [|discriminate]].
      * split; [discriminate|]. intros Hu. apply Hb in Hu. discriminate.
      * split; [|reflexivity]. intros _. split; [|reflexivity].
        intros Hu. apply Hb in Hu. discriminate.
    + rewrite bool_decide_eq_true_2 by discriminate.
      eexists. split; [reflexivity|]. split; [reflexivity|].
      split; [|split; [|now intros s [= <-]]].
      * split; [discriminate|]. intros Hu. apply Hb in Hu. discriminate.
      * split; [discriminate|]. intros [_ N]. discriminate.
Qed.

Lemma solve_only_reads_the_cube_witness :
  let cu := logged [(Right, false); (Up, true)] in
  ∃ r, solve cu = Some (r, cu)
       ∧ get_solution cu = Some (r, cu)
       ∧ (r = AlreadySolved ↔ Forall uniform (faces cu))
       ∧ (r = NoHistory ↔ ¬ Forall uniform (faces cu) ∧ move_history cu = [])
       ∧ ∀ s, r = Solution s →
              s = join (_get_inverse_move <$> reverse (move_history cu)).
Proof.
  intros cu. apply (solve_only_reads_the_cube cu).
  vm_compute. repeat constructor.
Defined.

Lemma logged_twice_solved l :
  logged (l ++ inverse_turns l)
  = mkCube _create_solved_cube
           ((uncurry notation <$> l) ++ (uncurry notation <$> inverse_turns l)).
Proof.
  unfold logged. rewrite turns_app, fmap_app.
  now rewrite turns_inverse_turns by apply wf_solved.
Qed.

Lemma solve_and_apply_solved h :
  solve_and_apply (mkCube _create_solved_cube h)
  = Some (AlreadySolved, mkCube _create_solved_cube h).
Proof. reflexivity. Qed.

(** X15. On a cube whose grid is the replay of its log, [solve_and_apply]
    either finds the cube solved and leaves it alone, or runs one inverse
    move for each log entry, which solves the grid and appends those moves
    to the log.  Either way the log still replays to the grid, and a second
    [solve_and_apply] finds the cube solved and changes nothing. *)
Theorem solve_and_apply_keeps_the_log_truthful (cu : Cube) :
  replayed cu →
  ∃ r cu', solve_and_apply cu = Some (r, cu')
           ∧ replayed cu'
           ∧ solve_and_apply cu' = Some (AlreadySolved, cu')
           ∧ ((r = AlreadySolved ∧ cu' = cu)
              ∨ ∃ s, r = Solution s
                     ∧ split s = _get_inverse_move <$> reverse (move_history cu)
                     ∧ move_history cu' = move_history cu ++ split s
                     ∧ faces cu' = _create_solved_cube).
Proof.
  intros H. apply replayed_logged in H as [l ->].
  unfold solve_and_apply at 1.
  destruct (solve_logged l) as [[E Hs]|E]; erewrite bind_run by exact E.
  - exists AlreadySolved, (logged l).
    split; [reflexivity|]. split; [apply replayed_logged; now exists l|].
    split; [|now left].
    unfold solve_and_apply. now erewrite bind_run by exact E.
  - cbv beta iota. erewrite bind_run.
    2: { unfold execute_algorithm, logged. cbn [move_history].
         rewrite inverse_moves_logged, split_join_notations.
         rewrite <- inverse_moves_logged. apply inverse_moves_run. }
    eexists _, _. split; [reflexivity|].
    rewrite <- logged_twice_solved.
    split; [apply replayed_logged; now eexists|].
    rewrite logged_twice_solved.
    split; [apply solve_and_apply_solved|]. right.
    eexists. split; [reflexivity|].
    unfold logged. cbn [move_history faces].
    rewrite inverse_moves_logged, split_join_notations. now repeat split.
Qed.

Lemma solve_and_apply_keeps_the_log_truthful_witness :
  let cu := logged [(Front, false); (Left, true); (Left, true)] in
  ∃ r cu', solve_and_apply cu = Some (r, cu')
           ∧ replayed cu'
           ∧ solve_and_apply cu' = Some (AlreadySolved, cu')
           ∧ ((r = AlreadySolved ∧ cu' = cu)
              ∨ ∃ s, r = Solution s
                     ∧ split s = _get_inverse_move <$> reverse (move_history cu)
                     ∧ move_history cu' = move_history cu ++ split s
                     ∧ faces cu' = _create_solved_cube).
Proof.
  intros cu. apply (solve_and_apply_keeps_the_log_truthful cu).
  vm_compute. reflexivity.
Defined.

Lemma undo_move_logged l f p :
  undo_move (logged (l ++ [(f, p)])) = Some (true, logged l).
Proof.
  unfold logged. rewrite fmap_app, turns_app. simpl.
  rewrite undo_move_run by apply turn_wf, logged_wf.
  replace (turns_of _) with [(f, negb p)] by (now destruct f, p).
  simpl. now rewrite turn_negb_turn by apply logged_wf.
Qed.

Lemma undo_times_logged l :
  undo_times (length l) (logged l) = Some (replicate (length l) true, new_cube).
Proof.
  induction l as [|[f p] l IH] using rev_ind; [reflexivity|].
  rewrite length_app, Nat.add_comm. simpl.
  erewrite bind_run by apply undo_move_logged.
  erewrite bind_run by exact IH. reflexivity.
Qed.

(** X16. Undo can be repeated down to the new cube: on a cube the
    operations reach, as many calls of [undo_move] as the log has entries
    all answer true and end in the new cube, solved and with an empty log;
    one more call answers false and changes nothing. *)
Theorem undo_all_the_way_back (cu : Cube) :
  reachable cu →
  undo_times (length (move_history cu)) cu
  = Some (replicate (length (move_history cu)) true, new_cube)
  ∧ undo_move new_cube = Some (false, new_cube).
Proof.
  intros [l ->]%reachable_logged. split; [|reflexivity].
  unfold logged at 1 3. cbn [move_history]. rewrite length_fmap.
  apply undo_times_logged.
Qed.

Lemma undo_all_the_way_back_witness :
  let cu := logged [(Right, false); (Right, false); (Down, true)] in
  undo_times (length (move_history cu)) cu
  = Some (replicate (length (move_history cu)) true, new_cube)
  ∧ undo_move new_cube = Some (false, new_cube).
Proof.
  intros cu. apply (undo_all_the_way_back cu).
  apply (reach_move "D'" (logged [(Right, false); (Right, false)])); [|reflexivity].
  apply (reach_move "R2" new_cube); [apply reach_new | reflexivity].
Defined.

(** X17. On a well-formed cube a quarter-turn token followed by one undo
    gives back exactly the cube before, grid and log.  A half-turn token
    followed by one undo does not: it leaves the cube that the clockwise
    quarter-turn token alone leaves. *)
Theorem undo_takes_back_one_quarter_turn (f : face) (p : bool) (cu : Cube) :
  wf_cube cu →
  (execute_move (notation f p) ;; undo_move) cu = Some (true, cu)
  ∧ (execute_move (letter f ++ "2") ;; undo_move) cu
    = (execute_move (letter f) ;; ret true) cu.
Proof.
  destruct cu as [fs h]. unfold wf_cube. simpl. intros H. split.
  - erewrite bind_run by (apply execute_move_run, H).
    rewrite turns_of_notation. simpl.
    rewrite undo_move_run by (apply turn_wf, H).
    replace (turns_of _) with [(f, negb p)] by (now destruct f, p).
    simpl. now rewrite turn_negb_turn by exact H.
  - erewrite !bind_run by (apply execute_move_run, H).
    rewrite turns_of_double, turns_of_letter. simpl.
    change (h ++ [letter f; letter f]) with (h ++ [letter f] ++ [letter f]).
    rewrite app_assoc.
    rewrite undo_move_run by (apply turn_wf, turn_wf, H).
    replace (turns_of _) with [(f, true)] by (now destruct f).
    simpl. now rewrite (turn_negb_turn f false) by (apply turn_wf, H).
Qed.

Lemma undo_takes_back_one_quarter_turn_witness :
  (execute_move (notation Down true) ;; undo_move) new_cube = Some (true, new_cube)
  ∧ (execute_move "D2" ;; undo_move) new_cube
    = (execute_move "D" ;; ret true) new_cube.
Proof.
  apply (undo_takes_back_one_quarter_turn Down true new_cube). apply wf_solved.
Defined.

(** ** Scramble *)

Lemma split_from_token t rest :
  t ∈ well_formed_tokens →
  split_from EmptyString (t ++ " " ++ rest) = t :: split_from EmptyString rest
  ∧ split_from EmptyString t = [t]
  ∧ t ≠ EmptyString.
Proof.
  intros Hin. vm_compute in Hin.
  repeat (apply elem_of_cons in Hin as [-> | Hin];
          [split; [reflexivity | split; [reflexivity | discriminate]]|]).
  now apply elem_of_nil in Hin.
Qed.

Lemma split_join_tokens ts :
  Forall (λ t, t ∈ well_formed_tokens) ts → split (join ts) = ts.
Proof.
  unfold split. induction 1 as [|t ts Ht Hts IH]; [reflexivity|].
  destruct ts as [|t' ts].
  - apply (split_from_token t EmptyString Ht).
  - change (join (t :: t' :: ts)) with (t ++ " " ++ join (t' :: ts))%string.
    rewrite (proj1 (split_from_token t _ Ht)), IH. reflexivity.
Qed.

Lemma scramble_token mv md :
  mv ∈ ["U"; "D"; "F"; "B"; "L"; "R"] →
  md ∈ [EmptyString; "'"; "2"] →
  ∃ g, mv = letter g
       ∧ (mv ++ md)%string ∈ well_formed_tokens
       ∧ token_face (mv ++ md) = Some g.
Proof.
  intros Hmv Hmd.
  repeat (apply elem_of_cons in Hmv as [-> | Hmv];
          [ repeat (apply elem_of_cons in Hmd as [-> | Hmd];
                    [ first [ exists Up; split; [reflexivity|]
                            | exists Down; split; [reflexivity|]
                            | exists Front; split; [reflexivity|]
                            | exists Back; split; [reflexivity|]
                            | exists Left; split; [reflexivity|]
                            | exists Right; split; [reflexivity|] ];
                      split; [vm_compute; repeat constructor | reflexivity] | ]);
            now apply elem_of_nil in Hmd | ]).
  now apply elem_of_nil in Hmv.
Qed.

Lemma scramble_loop_run draws :
  ∀ (last : option face) acc cu, wf_cube cu →
  ∃ ts cu', scramble_loop draws (letter <$> last) acc cu = Some (acc ++ ts, cu')
            ∧ length ts = length draws
            ∧ Forall (λ t, t ∈ well_formed_tokens) ts
            ∧ faces_alternate last ts
            ∧ execute_moves ts cu = Some (tt, cu').
Proof.
  induction draws as [|[k1 k2] draws IH]; intros last acc cu H.
  - exists [], cu. rewrite app_nil_r. now repeat split.
  - cbn [scramble_loop].
    destruct (choice_run k1 _ cu (available_moves_nonempty (letter <$> last)))
      as (mv & E1 & [Hne Hmv]%list_elem_of_filter).
    erewrite bind_run by exact E1.
    destruct (choice_run k2 [EmptyString; "'"; "2"] cu) as (md & E2 & Hmd);
      [discriminate|].
    erewrite bind_run by exact E2.
    destruct (scramble_token mv md Hmv Hmd) as (g & -> & Htok & Hface).
    destruct (execute_move_wf (letter g ++ md) cu H) as (cu1 & E3 & H1).
    erewrite bind_run by exact E3.
    destruct (IH (Some g) (acc ++ [(letter g ++ md)%string]) cu1 H1)
      as (ts & cu' & E & Hlen & Hall & Halt & Hrun).
    change (letter <$> Some g) with (Some (letter g)) in E.
    exists ((letter g ++ md)%string :: ts), cu'.
    split; [rewrite E; now rewrite <- app_assoc|].
    split; [simpl; now rewrite Hlen|].
    split; [now constructor|]. split.
    + cbn [faces_alternate]. rewrite Hface. split; [|exact Halt].
      intros <-. now apply Hne.
    + cbn [execute_moves]. now erewrite bind_run by exact E3.
Qed.

(** X18. On a well-formed cube a scramble never raises, whatever the
    draws.  The string it returns splits into one token for each draw,
    every token is one of the eighteen of the grammar, no token turns the
    face of the token before it, and running the string as an algorithm on
    the cube before the scramble gives the cube after it. *)
Theorem scramble_returns_the_moves_it_made (draws : list (nat * nat)) (cu : Cube) :
  wf_cube cu →
  ∃ s cu', scramble draws cu = Some (s, cu')
           ∧ length (split s) = length draws
           ∧ Forall (λ t, t ∈ well_formed_tokens) (split s)
           ∧ faces_alternate None (split s)
           ∧ execute_algorithm s cu = Some (tt, cu').
Proof.
  intros H. unfold scramble.
  destruct (scramble_loop_run draws None [] cu H)
    as (ts & cu' & E & Hlen & Hall & Halt & Hrun).
  simpl in E. erewrite bind_run by exact E.
  exists (join ts), cu'. unfold execute_algorithm.
  rewrite split_join_tokens by exact Hall. now repeat split.
Qed.

Lemma scramble_returns_the_moves_it_made_witness :
  let draws := [(0, 0); (3, 2); (1, 1); (4, 0); (7, 5)] in
  ∃ s cu', scramble draws new_cube = Some (s, cu')
           ∧ length (split s) = length draws
           ∧ Forall (λ t, t ∈ well_formed_tokens) (split s)
           ∧ faces_alternate None (split s)
           ∧ execute_algorithm s new_cube = Some (tt, cu').
Proof.
  intros draws. apply (scramble_returns_the_moves_it_made draws new_cube).
  apply wf_solved.
Defined.

Lemma idle_round rest last acc fs h :
  wf_faces fs →
  last = None ∨ last = Some "D" →
  scramble_loop ([(0, 0); (0, 0); (0, 1); (0, 1)] ++ rest) last acc (mkCube fs h)
  = scramble_loop rest (Some "D")
      ((((acc ++ ["U"]) ++ ["D"]) ++ ["U'"]) ++ ["D'"])
      (mkCube fs ((((h ++ ["U"]) ++ ["D"]) ++ ["U'"]) ++ ["D'"])).
Proof.
  intros H Hl. explode_faces H. destruct Hl as [-> | ->]; reflexivity.
Qed.

Lemma idle_rounds k :
  ∀ last acc fs h, wf_faces fs → last = None ∨ last = Some "D" →
  ∃ acc' h', scramble_loop (idle_draws k) last acc (mkCube fs h)
             = Some (acc', mkCube fs h').
Proof.
  induction k as [|k IH]; intros last acc fs h H Hl.
  - now exists acc, h.
  - change (idle_draws (S k))
      with ([(0, 0); (0, 0); (0, 1); (0, 1)] ++ idle_draws k).
    rewrite idle_round by assumption. apply IH; [exact H | now right].
Qed.

(** X19. A scramble need not change the grid.  For every k there are 4k
    draws, choosing U, D, U', D' over and over, after which the grid of any
    well-formed cube is what it was; a new cube scrambled this way is still
    solved. *)
Theorem scramble_can_leave_the_grid_unchanged (k : nat) (cu : Cube) :
  wf_cube cu →
  ∃ s cu', scramble (idle_draws k) cu = Some (s, cu')
           ∧ length (idle_draws k) = 4 * k
           ∧ faces cu' = faces cu.
Proof.
  destruct cu as [fs h]. unfold wf_cube. simpl. intros H.
  destruct (idle_rounds k None [] fs h H) as (acc' & h' & E); [now left|].
  unfold scramble. erewrite bind_run by exact E.
  eexists _, _. split; [reflexivity|]. split; [|reflexivity].
  unfold idle_draws. clear. induction k as [|k IH]; [reflexivity|].
  cbn [replicate concat]. rewrite length_app, IH. simpl. lia.
Qed.

Lemma scramble_can_leave_the_grid_unchanged_witness :
  ∃ s cu', scramble (idle_draws 5) new_cube = Some (s, cu')
           ∧ length (idle_draws 5) = 4 * 5
           ∧ faces cu' = faces new_cube.
Proof.
  apply (scramble_can_leave_the_grid_unchanged 5 new_cube). apply wf_solved.
Defined.

(** ** The move branch of the command loop *)

Lemma forallb_bool_decide {X} (P : X → Prop) `{∀ x, Decision (P x)} (l : list X) :
  forallb (λ x, bool_decide (P x)) l = true ↔ Forall P l.
Proof.
  induction l as [|x l IH]; simpl.
  - split; [constructor | reflexivity].
  - rewrite andb_true_iff, bool_decide_eq_true, Forall_cons. tauto.
Qed.

Lemma valid_moves_grammar : valid_moves = well_formed_tokens.
Proof. reflexivity. Qed.

Lemma turns_of_valid t : t ∈ valid_moves → (1 ≤ length (turns_of t))%nat.
Proof.
  intros Hin. rewrite valid_moves_grammar in Hin.
  apply well_formed_tokens_inv in Hin as [f [-> | [-> | ->]]].
  - rewrite turns_of_letter. simpl. lia.
  - rewrite turns_of_prime. simpl. lia.
  - rewrite turns_of_double. simpl. lia.
Qed.

Lemma bind_turns_of_valid ts :
  Forall (λ t, t ∈ valid_moves) ts → (length ts ≤ length (ts ≫= turns_of))%nat.
Proof.
  induction 1 as [|t ts Ht _ IH]; [simpl; lia|].
  rewrite bind_cons, length_app. pose proof (turns_of_valid t Ht).
  simpl. lia.
Qed.

(** X20. A line of moves is run all or not at all, whatever [upper] does
    to its characters.  If one word of the upper-cased line is not among
    the eighteen valid moves, the cube is left as it was, also the words
    before the bad one.  If all are valid, on a well-formed cube every
    word is executed in order and the log grows by at least one entry for
    each word. *)
Theorem move_line_is_all_or_nothing
    (upper : string → string) (user_input : string) (cu : Cube) :
  wf_cube cu →
  (¬ Forall (λ t, t ∈ valid_moves) (split (upper user_input)) →
   move_command upper user_input cu = Some (false, cu))
  ∧ (Forall (λ t, t ∈ valid_moves) (split (upper user_input)) →
     ∃ cu', move_command upper user_input cu = Some (true, cu')
            ∧ execute_moves (split (upper user_input)) cu = Some (tt, cu')
            ∧ wf_cube cu'
            ∧ (length (move_history cu) + length (split (upper user_input))
               ≤ length (move_history cu'))%nat).
Proof.
  intros H. unfold move_command. split; intros Hv.
  - destruct (forallb _ _) eqn:E; [|reflexivity].
    apply forallb_bool_decide in E. contradiction.
  - rewrite (proj2 (forallb_bool_decide _ _) Hv).
    destruct cu as [fs h]. unfold wf_cube in *. simpl in H.
    erewrite bind_run by (apply execute_moves_run, H).
    eexists. split; [reflexivity|].
    split; [apply execute_moves_run, H|].
    split; [apply turns_wf, H|]. simpl.
    rewrite length_app, length_fmap.
    pose proof (bind_turns_of_valid _ Hv). lia.
Qed.

Lemma move_line_is_all_or_nothing_witness :
  move_command id "R U2 X F" new_cube = Some (false, new_cube)
  ∧ ∃ cu', move_command id "R U2 F'" new_cube = Some (true, cu')
           ∧ execute_moves (split (id "R U2 F'")) new_cube = Some (tt, cu')
           ∧ wf_cube cu'
           ∧ (length (move_history new_cube) + length (split (id "R U2 F'"))
              ≤ length (move_history cu'))%nat.
Proof.
  split.
  - apply (move_line_is_all_or_nothing id "R U2 X F" new_cube); [apply wf_solved|].
    vm_compute. intros Hv.
    do 2 (apply Forall_cons in Hv as [_ Hv]). apply Forall_cons in Hv as [Hx _].
    repeat (apply elem_of_cons in Hx as [[=] | Hx]). now apply elem_of_nil in Hx.
  - apply (move_line_is_all_or_nothing id "R U2 F'" new_cube); [apply wf_solved|].
    vm_compute. repeat constructor.
Defined.

(** ** The printed net *)

Lemma colour_lookup c : c ∈ FACE_COLORS → COLORS !! c = Some (glyph c).
Proof.
  intros Hin. repeat (apply elem_of_cons in Hin as [-> | Hin]; [reflexivity|]).
  now apply elem_of_nil in Hin.
Qed.

Lemma lookup_colour c g : COLORS !! c = Some g → c ∈ FACE_COLORS.
Proof.
  intros H. apply elem_of_list_to_map_2 in H.
  repeat (apply elem_of_cons in H as [[= -> _] | H];
          [vm_compute; repeat constructor|]).
  now apply elem_of_nil in H.
Qed.

Lemma paint_cells a b c :
  a ∈ FACE_COLORS → b ∈ FACE_COLORS → c ∈ FACE_COLORS →
  paint [a; b; c]
  = Some (glyph a ++ text " " ++ glyph b ++ text " " ++ glyph c).
Proof.
  intros Ha Hb Hc. unfold paint. simpl.
  rewrite (colour_lookup a Ha), (colour_lookup b Hb), (colour_lookup c Hc).
  reflexivity.
Qed.

Lemma paint_Some a b c l :
  paint [a; b; c] = Some l →
  a ∈ FACE_COLORS ∧ b ∈ FACE_COLORS ∧ c ∈ FACE_COLORS.
Proof.
  unfold paint. simpl.
  destruct (COLORS !! a) eqn:Ea; [|discriminate].
  destruct (COLORS !! b) eqn:Eb; [|discriminate].
  destruct (COLORS !! c) eqn:Ec; [|discriminate].
  intros _. repeat split; eapply lookup_colour; eassumption.
Qed.

(** The six texts of [COLORS] form a prefix code. *)
Lemma glyph_prefix a b r1 r2 :
  a ∈ FACE_COLORS → b ∈ FACE_COLORS →
  glyph a ++ r1 = glyph b ++ r2 → a = b ∧ r1 = r2.
Proof.
  intros Ha Hb.
  repeat (apply elem_of_cons in Ha as [-> | Ha];
          [ repeat (apply elem_of_cons in Hb as [-> | Hb];
                    [ vm_compute; intros [=]; now subst | ]);
            now apply elem_of_nil in Hb | ]).
  now apply elem_of_nil in Ha.
Qed.

Lemma glyph_inj a b :
  a ∈ FACE_COLORS → b ∈ FACE_COLORS → glyph a = glyph b → a = b.
Proof.
  intros Ha Hb E. apply (glyph_prefix a b [] [] Ha Hb).
  now rewrite !app_nil_r.
Qed.

#[local] Arguments paint : simpl never.
#[local] Arguments glyph : simpl never.

(** Names the cells of a well-formed, coloured grid and their colours. *)
Ltac explode_coloured H Hc :=
  explode_faces H; unfold coloured, facelets in Hc; simpl in Hc;
  repeat (apply Forall_cons in Hc as [? Hc]); clear Hc.

(** Brings the text of the net of an exploded grid to a flat list. *)
Ltac net_text :=
  unfold __str__; simpl; rewrite !paint_cells by assumption;
  cbv - [glyph app];
  cbn [app]; rewrite <- ?app_assoc; cbn [app]; rewrite <- ?app_assoc; cbn [app].

Lemma net_of_coloured fs h :
  wf_faces fs → coloured (mkCube fs h) →
  ∃ s, __str__ (mkCube fs h) = Some (s, mkCube fs h).
Proof.
  intros H Hc. explode_coloured H Hc. eexists. net_text. reflexivity.
Qed.

(** X21. On a well-formed cube [__str__] returns a text exactly when all
    54 cells hold one of the six colour letters; with any other cell it
    raises KeyError.  It never changes the cube. *)
Theorem net_needs_the_six_colours (cu : Cube) :
  wf_cube cu →
  (coloured cu → ∃ s, __str__ cu = Some (s, cu))
  ∧ (¬ coloured cu → __str__ cu = None).
Proof.
  destruct cu as [fs h]. unfold wf_cube. simpl. intros H. split.
  - now apply net_of_coloured.
  - intros N. destruct (__str__ (mkCube fs h)) as [[s cu']|] eqn:E; [|reflexivity].
    exfalso. apply N. clear N. explode_faces H.
    unfold __str__ in E. simpl in E.
    repeat match type of E with
           | context [paint ?r] =>
               let Ep := fresh "Ep" in
               destruct (paint r) eqn:Ep;
               [apply paint_Some in Ep as (? & ? & ?) | discriminate E];
               cbn [mbind option_bind] in E
           end.
    unfold coloured, facelets. simpl.
    repeat (apply Forall_cons; split; [assumption|]). apply Forall_nil_2.
Qed.

Lemma net_needs_the_six_colours_witness :
  (∃ s, __str__ new_cube = Some (s, new_cube))
  ∧ __str__ labelled_cube = None.
Proof.
  split.
  - apply (net_needs_the_six_colours new_cube); [apply wf_solved|].
    vm_compute. repeat (apply Forall_cons; split; [repeat constructor|]).
    apply Forall_nil_2.
  - apply (net_needs_the_six_colours labelled_cube).
    + vm_compute. repeat constructor.
    + vm_compute. intros Hc. apply Forall_cons in Hc as [Ha _].
      repeat (apply elem_of_cons in Ha as [[=] | Ha]).
      now apply elem_of_nil in Ha.
Defined.

(** X22. The printed net tells the grid: two well-formed cubes with
    cells among the six colour letters that print the same text have the
    same grid, so comparing the texts compares the grids. *)
Theorem net_text_tells_the_grid (cu1 cu2 : Cube) :
  wf_cube cu1 → wf_cube cu2 → coloured cu1 → coloured cu2 →
  ∃ s1 s2, __str__ cu1 = Some (s1, cu1)
           ∧ __str__ cu2 = Some (s2, cu2)
           ∧ (s1 = s2 ↔ faces cu1 = faces cu2).
Proof.
  destruct cu1 as [fs1 h1], cu2 as [fs2 h2]. unfold wf_cube. simpl.
  intros H1 H2 Hc1 Hc2.
  explode_coloured H1 Hc1. explode_coloured H2 Hc2.
  eexists _, _. split; [net_text; reflexivity|].
  split; [net_text; reflexivity|]. split.
  - intros E.
    repeat first
      [ apply glyph_prefix in E as [-> E]; [|assumption|assumption]
      | injection E as E ].
    apply glyph_inj in E as ->; [reflexivity | assumption..].
  - now intros [= -> -> -> -> -> -> -> -> -> -> -> -> -> -> -> -> -> ->
                  -> -> -> -> -> -> -> -> -> -> -> -> -> -> -> -> -> ->
                  -> -> -> -> -> -> -> -> -> -> -> -> -> -> -> -> -> ->].
Qed.

Lemma net_text_tells_the_grid_witness :
  let cu1 := logged [(Right, false)] in
  let cu2 := mkCube (turn Right false _create_solved_cube) ["F"; "F'"; "R"] in
  ∃ s1 s2, __str__ cu1 = Some (s1, cu1)
           ∧ __str__ cu2 = Some (s2, cu2)
           ∧ (s1 = s2 ↔ faces cu1 = faces cu2).
Proof.
  intros cu1 cu2. apply (net_text_tells_the_grid cu1 cu2);
    vm_compute; repeat constructor.
Defined.
